(** * sysinfo_influxdb: the rate normalizer and the sampling loop

    A shallow embedding of [main.go]: the [DiffFromLast] diff engine with
    its process-wide [last_series] cache, the gathering functions that
    write to the result channel, and the body of the collecting loop of
    [main]. *)

From Stdlib Require Import ZArith Bool Lia Ascii DecimalString.
From Stdlib Require Import Floats.SpecFloat.
From stdpp Require Import gmap strings list fin_maps pretty.

Local Open Scope Z_scope.

(** ** float64

    Go's [float64] is IEEE 754 binary64: 53 bits of precision, the
    exponent of the infinities is 1024. *)

Module F64.

Definition prec : Z := 53.
Definition emax : Z := 1024.

Definition t := spec_float.

Definition of_Z (z : Z) : t := binary_normalize prec emax z 0 false.
Definition mul (x y : t) : t := SFmul prec emax x y.
Definition div (x y : t) : t := SFdiv prec emax x y.
Definition add (x y : t) : t := SFadd prec emax x y.
Definition ltb (x y : t) : bool := SFltb x y.

(** The integer part of a finite float (the fraction is discarded), and
    nothing for the infinities and NaN. *)
Definition trunc (x : t) : option Z :=
  match x with
  | S754_zero _ => Some 0
  | S754_finite s m e =>
      let a := match e with
               | Zneg p => Z.shiftr (Zpos m) (Zpos p)
               | _ => Z.shiftl (Zpos m) e
               end in
      Some (if s then - a else a)
  | S754_infinity _ | S754_nan => None
  end.

Definition one : t := of_Z 1.

Definition is_finite (x : t) : bool :=
  match x with
  | S754_zero _ | S754_finite _ _ _ => true
  | S754_infinity _ | S754_nan => false
  end.

End F64.

(** ** The result of running Go code that may panic *)

Inductive result (A : Type) : Type :=
  | Returns (a : A)
  | Panics.
Arguments Returns {A} a.
Arguments Panics {A}.

#[global] Instance result_bind : MBind result := fun A B k m =>
  match m with
  | Returns a => k a
  | Panics => Panics
  end.

(** Indexing out of range and dereferencing nil are run-time panics. *)
Definition idx {A : Type} (o : option A) : result A :=
  match o with
  | Some a => Returns a
  | None => Panics
  end.

(** A [for i := 0; i < n; i++] loop whose bound does not change while it
    runs: [body] at [i], [i+1], ... *)
Fixpoint for_from {S : Type} (n i : nat) (body : nat -> S -> result S) (s : S)
  : result S :=
  match n with
  | O => Returns s
  | Datatypes.S n' => s' ← body i s; for_from n' (Datatypes.S i) body s'
  end.

Definition for_loop {S : Type} (n : nat) (body : nat -> S -> result S) (s : S)
  : result S :=
  for_from n 0%nat body s.

(** ** Values held in an [interface{}] cell *)

Inductive arch := GOARCH32 | GOARCH64.

Inductive intkind :=
  | Int8 | Int16 | Int32 | Int64
  | Uint8 | Uint16 | Uint32 | Uint64
  | Int | Uint.

Inductive value :=
  | VInt (k : intkind) (z : Z)
  | VString (s : string)
  | VFloat64 (x : spec_float)
  | VNil.

#[global] Instance intkind_eq_dec : EqDecision intkind.
Proof. solve_decision. Defined.
#[global] Instance spec_float_eq_dec : EqDecision spec_float.
Proof. solve_decision. Defined.
#[global] Instance value_eq_dec : EqDecision value.
Proof. solve_decision. Defined.

Definition is_signed (k : intkind) : bool :=
  match k with
  | Int8 | Int16 | Int32 | Int64 | Int => true
  | _ => false
  end.

Definition bits (a : arch) (k : intkind) : Z :=
  match k with
  | Int8 | Uint8 => 8
  | Int16 | Uint16 => 16
  | Int32 | Uint32 => 32
  | Int64 | Uint64 => 64
  | Int | Uint => match a with GOARCH32 => 32 | GOARCH64 => 64 end
  end.

Definition min_int (a : arch) (k : intkind) : Z :=
  if is_signed k then - 2 ^ (bits a k - 1) else 0.

Definition max_int (a : arch) (k : intkind) : Z :=
  if is_signed k then 2 ^ (bits a k - 1) - 1 else 2 ^ bits a k - 1.

Definition in_range (a : arch) (k : intkind) (z : Z) : bool :=
  (min_int a k <=? z) && (z <=? max_int a k).

(** Integer arithmetic wraps around in the width of the type. *)
Definition wrap (a : arch) (k : intkind) (z : Z) : Z :=
  (z - min_int a k) mod 2 ^ bits a k + min_int a k.

Definition sub (a : arch) (k : intkind) (x y : Z) : Z := wrap a k (x - y).

(** ** Series, the heap and the snapshot cache

    [*influxClient.Series] values are addresses into [heap]; the global
    [last_series] maps a series name to the rows last seen under it; [chan]
    holds what has been sent on the result channel and not yet received,
    oldest first. The rows of a series are taken to be distinct slices, as
    every gathering function builds them. *)

Abbreviation loc := nat.

Record Series := mkSeries {
  Name : string;
  Columns : list string;
  Points : list (list value)
}.

Record world := mkWorld {
  heap : list Series;
  last_series : gmap string (list (list value));
  chan : list (option loc)
}.

Definition set_Points (s : Series) (pts : list (list value)) : Series :=
  mkSeries (Name s) (Columns s) pts.

Definition set_heap (w : world) (h : list Series) : world :=
  mkWorld h (last_series w) (chan w).

Definition set_last_series (w : world) (name : string)
    (rows : list (list value)) : world :=
  mkWorld (heap w) (<[name := rows]> (last_series w)) (chan w).

(** [last_series[name]]: a missing key reads as the nil slice. *)
Definition cached (w : world) (name : string) : list (list value) :=
  default [] (last_series w !! name).

(** The cell at row [i], column [j]. *)
Definition cell (rows : list (list value)) (i j : nat) : option value :=
  row ← rows !! i; row !! j.

(** The rows of the series at [p]. *)
Definition points_at (w : world) (p : loc) : list (list value) :=
  default [] (Points <$> heap w !! p).

(** The world and the value a call leaves, for use after a call that is
    known to return. *)
Definition world_after {A : Type} (r : result (A * world)) (w : world) : world :=
  match r with
  | Returns (_, w') => w'
  | Panics => w
  end.

Definition value_after {A : Type} (r : result (A * world)) (a : A) : A :=
  match r with
  | Returns (a', _) => a'
  | Panics => a
  end.

(** ** The consistency factor

    [Duration.Seconds] of Go's [time] package, on a duration in
    nanoseconds, and the assignment at the start of [main]; the variable
    is initialised to 1.0. *)
Definition Seconds (d : Z) : F64.t :=
  F64.add (F64.of_Z (Z.quot d 1000000000))
          (F64.div (F64.of_Z (Z.rem d 1000000000)) (F64.of_Z 1000000000)).

Definition startup_consistencyFactor (daemonConsistencyFlag daemonIntervalFlag : Z)
  : F64.t :=
  if F64.ltb (F64.of_Z 0) (Seconds daemonConsistencyFlag)
  then F64.div (Seconds daemonConsistencyFlag) (Seconds daemonIntervalFlag)
  else F64.one.

(** ** The prefix of the series names

    [if prefixFlag != "" && prefixFlag[len(prefixFlag)-1] != '.'
     { prefixFlag += "." }] *)
Definition normalize_prefix (prefixFlag : string) : string :=
  if negb (String.eqb prefixFlag "")
     && negb (bool_decide (String.get (String.length prefixFlag - 1)%nat prefixFlag
                           = Some "."%char))
  then prefixFlag +:+ "."
  else prefixFlag.

(** ** What the gathering functions read

    One [os] value is what the operating system answers during one lap.
    [None] stands for a call that returned an error. The fields of the
    gosigar records are [uint64]; [cpu_Total] is what [Total()] returns. *)

Variant error := Error.

Record Cpu := mkCpu {
  cpu_User : Z; cpu_Nice : Z; cpu_Sys : Z; cpu_Idle : Z; cpu_Wait : Z;
  cpu_Total : Z
}.

Record Mem := mkMem {
  mem_Free : Z; mem_Used : Z; mem_ActualFree : Z; mem_ActualUsed : Z;
  mem_Total : Z
}.

Record Swap := mkSwap { swap_Free : Z; swap_Used : Z; swap_Total : Z }.

Record LoadAverage := mkLoadAverage {
  load_One : F64.t; load_Five : F64.t; load_Fifteen : F64.t
}.

(** The fields of [syscall.Statfs_t] that are read: [Bsize] is an
    [int64], the block counts are [uint64]. *)
Record Statfs_t := mkStatfs { Bsize : Z; Blocks : Z; Bfree : Z }.

Record os := mkOs {
  sigar_Cpu : option Cpu;
  sigar_CpuList : list Cpu;
  sigar_Mem : option Mem;
  sigar_Swap : option Swap;
  sigar_Uptime : option F64.t;
  sigar_LoadAverage : option LoadAverage;
  (** the lines of a file, or the failure of [os.Open] *)
  proc_net_dev : option (list string);
  proc_diskstats : option (list string);
  proc_mounts : option (list string);
  syscall_Statfs : string -> option Statfs_t;
  hostname_f : string
}.

(** [serie := &influxClient.Series{...}] *)
Definition alloc (serie : Series) (w : world) : loc * world :=
  (length (heap w), set_heap w (heap w ++ [serie])).

(** [serie.Points = append(serie.Points, row)] *)
Definition append_point (p : loc) (row : list value) (w : world) : result world :=
  serie ← idx (heap w !! p);
  Returns (set_heap w (<[p := set_Points serie (Points serie ++ [row])]> (heap w))).

(** [ch <- m]; the channel has room for one value per gathering function. *)
Definition send (m : option loc) (w : world) : world :=
  mkWorld (heap w) (last_series w) (chan w ++ [m]).

Fixpoint stringInSlice (a : string) (l : list string) : bool :=
  match l with
  | [] => false
  | b :: l => if String.eqb b a then true else stringInSlice a l
  end.

(** How a loop over the lines of a file ends: it runs to the end of the
    file, or the function returns from inside it. *)
Inductive scan :=
  | Scanned (w : world)
  | Returned (err : option error) (w : world).

(** ** Flags, and what the process does that can be observed *)

Record flags := mkFlags {
  daemonFlag : bool;
  fqdnFlag : bool;
  daemonIntervalFlag : Z;
  prefixFlag : string;
  verboseFlag : string;
  databaseFlag : string
}.

Inductive event :=
  | Print (data : list Series)
  | PrintJSON (data : list Series)
  | WriteSeries (data : list Series)
  | Sleep (d : Z).

(** The main goroutine finishes a piece of work, waits forever on the
    channel, or the process dies of a panic. *)
Inductive run (A : Type) : Type :=
  | Done (a : A)
  | Blocked
  | Crashed.
Arguments Done {A} a.
Arguments Blocked {A}.
Arguments Crashed {A}.

(** [type GatherFunc func(string, chan *influxClient.Series) error]: the
    prefix, what the system answers, and the world with its channel. *)
Definition GatherFunc : Type :=
  string -> os -> world -> result (option error * world).

Section Program.

(** The platform: the size of [int] and [uint], and what the conversion of
    a [float64] to an integer type yields when the type cannot represent
    the value (implementation-dependent in Go; always a value of the
    type). *)
Variable goarch : arch.
Variable conv_unrepresentable : intkind -> spec_float -> Z.

(** The global [consistencyFactor], fixed before the first lap. *)
Variable consistencyFactor : F64.t.

(** Go's [strings.Split], [strings.Trim], [strings.Fields],
    [strings.ToLower] and [strconv.Atoi] ([None]: the error result). *)
Variable strings_Split : string -> string -> list string.
Variable strings_Trim : string -> string -> string.
Variable strings_Fields : string -> list string.
Variable strings_ToLower : string -> string.
Variable strconv_Atoi : string -> option Z.

(** What [fmt.Print] writes for one value. *)
Variable fmt_Sprint : value -> string.

Definition to_int (k : intkind) (x : F64.t) : Z :=
  match F64.trunc x with
  | Some z =>
      if in_range goarch k z then z
      else wrap goarch k (conv_unrepresentable k x)
  | None => wrap goarch k (conv_unrepresentable k x)
  end.

(** The type assertion [tmp.(T)] for an integer type [T]. *)
Definition assert_kind (k : intkind) (tmp : value) : result Z :=
  match tmp with
  | VInt k' y => if decide (k' = k) then Returns y else Panics
  | _ => Panics
  end.

(** [T(float64(x - y) * consistencyFactor)] *)
Definition scaled_diff (k : intkind) (x y : Z) : Z :=
  to_int k (F64.mul (F64.of_Z (sub goarch k x y)) consistencyFactor).

(** The type switch of [DiffFromLast]: the value assigned to the cell, or
    nothing when no case matches. *)
Definition diff_switch (cell tmp : value) : result (option value) :=
  match cell with
  | VInt k x => y ← assert_kind k tmp; Returns (Some (VInt k (scaled_diff k x y)))
  | _ => Returns None
  end.

(** The body of the inner loop, at row [i] and column [j] of the series
    at [p]. *)
Definition diff_cell (p : loc) (i j : nat) (st : world * bool)
  : result (world * bool) :=
  let '(w, notComplete) := st in
  serie ← idx (heap w !! p);
  row ← idx (Points serie !! i);
  cell ← idx (row !! j);
  let name := Name serie in
  crow ← idx (cached w name !! i);
  '(tmp, notComplete, crow) ←
    (if (length crow <=? j)%nat
     then Returns (cell, true, crow ++ [cell])
     else old ← idx (crow !! j); Returns (old, notComplete, <[j := cell]> crow));
  let w := set_last_series w name (<[i := crow]> (cached w name)) in
  new ← diff_switch cell tmp;
  let w :=
    match new with
    | Some v =>
        set_heap w (<[p := set_Points serie (<[i := <[j := v]> row]> (Points serie))]> (heap w))
    | None => w
    end in
  Returns (w, notComplete).

(** The body of the outer loop, at row [i]. *)
Definition diff_row (p : loc) (i : nat) (st : world * bool)
  : result (world * bool) :=
  let '(w, notComplete) := st in
  serie ← idx (heap w !! p);
  let name := Name serie in
  let w :=
    if (length (cached w name) <=? i)%nat
    then set_last_series w name (cached w name ++ [[]])
    else w in
  row ← idx (Points serie !! i);
  for_loop (length row) (diff_cell p i) (w, notComplete).

Definition DiffFromLast (p : loc) (w : world) : result (option loc * world) :=
  serie ← idx (heap w !! p);
  let name := Name serie in
  let w :=
    match last_series w !! name with
    | Some _ => w
    | None => set_last_series w name []
    end in
  '(w, notComplete) ← for_loop (length (Points serie)) (diff_row p) (w, false);
  Returns (if notComplete : bool then None else Some p, w).

(** *** Gathering functions *)

Definition cpu_row (id : string) (c : Cpu) : list value :=
  [VString id; VInt Uint64 (cpu_User c); VInt Uint64 (cpu_Nice c);
   VInt Uint64 (cpu_Sys c); VInt Uint64 (cpu_Idle c); VInt Uint64 (cpu_Wait c);
   VInt Uint64 (cpu_Total c)].

Definition cpu : GatherFunc := fun prefix o w =>
  let '(serie, w) :=
    alloc (mkSeries (prefix +:+ "cpu")
             ["id"; "user"; "nice"; "sys"; "idle"; "wait"; "total"] []) w in
  match sigar_Cpu o with
  | None => Returns (Some Error, send None w)
  | Some c =>
      w ← append_point serie (cpu_row "cpu" c) w;
      '(res, w) ← DiffFromLast serie w;
      Returns (None, send res w)
  end.

Fixpoint cpus_range (serie : loc) (i : nat) (l : list Cpu) (w : world)
  : result world :=
  match l with
  | [] => Returns w
  | c :: l =>
      w ← append_point serie (cpu_row ("cpu" +:+ pretty i) c) w;
      cpus_range serie (S i) l w
  end.

Definition cpus : GatherFunc := fun prefix o w =>
  let '(serie, w) :=
    alloc (mkSeries (prefix +:+ "cpus")
             ["id"; "user"; "nice"; "sys"; "idle"; "wait"; "total"] []) w in
  w ← cpus_range serie 0%nat (sigar_CpuList o) w;
  '(res, w) ← DiffFromLast serie w;
  Returns (None, send res w).

Definition mem : GatherFunc := fun prefix o w =>
  let '(serie, w) :=
    alloc (mkSeries (prefix +:+ "mem")
             ["free"; "used"; "actualfree"; "actualused"; "total"] []) w in
  match sigar_Mem o with
  | None => Returns (Some Error, send None w)
  | Some m =>
      w ← append_point serie
            [VInt Uint64 (mem_Free m); VInt Uint64 (mem_Used m);
             VInt Uint64 (mem_ActualFree m); VInt Uint64 (mem_ActualUsed m);
             VInt Uint64 (mem_Total m)] w;
      Returns (None, send (Some serie) w)
  end.

Definition swap : GatherFunc := fun prefix o w =>
  let '(serie, w) :=
    alloc (mkSeries (prefix +:+ "swap") ["free"; "used"; "total"] []) w in
  match sigar_Swap o with
  | None => Returns (Some Error, send None w)
  | Some sw =>
      w ← append_point serie
            [VInt Uint64 (swap_Free sw); VInt Uint64 (swap_Used sw);
             VInt Uint64 (swap_Total sw)] w;
      Returns (None, send (Some serie) w)
  end.

Definition uptime : GatherFunc := fun prefix o w =>
  let '(serie, w) := alloc (mkSeries (prefix +:+ "uptime") ["length"] []) w in
  match sigar_Uptime o with
  | None => Returns (Some Error, send None w)
  | Some len =>
      w ← append_point serie [VFloat64 len] w;
      Returns (None, send (Some serie) w)
  end.

Definition load : GatherFunc := fun prefix o w =>
  let '(serie, w) :=
    alloc (mkSeries (prefix +:+ "load") ["one"; "five"; "fifteen"] []) w in
  match sigar_LoadAverage o with
  | None => Returns (Some Error, send None w)
  | Some l =>
      w ← append_point serie
            [VFloat64 (load_One l); VFloat64 (load_Five l);
             VFloat64 (load_Fifteen l)] w;
      Returns (None, send (Some serie) w)
  end.

(** The counters of one line: [n] fields of [tmp] from index [from] on,
    each through [strconv.Atoi], 0 when it fails. *)
Definition atoi_fields (tmp : list string) (from n : nat) (points : list value)
  : result (list value) :=
  for_loop n (fun i points =>
    t ← idx (tmp !! (from + i)%nat);
    Returns (points ++ [VInt Int (default 0 (strconv_Atoi t))])) points.

Definition network_Columns : list string :=
  ["iface";
   "recv_bytes"; "recv_packets"; "recv_errs";
   "recv_drop"; "recv_fifo"; "recv_frame";
   "recv_compressed"; "recv_multicast";
   "trans_bytes"; "trans_packets"; "trans_errs";
   "trans_drop"; "trans_fifo"; "trans_colls";
   "trans_carrier"; "trans_compressed"].

Fixpoint network_scan (serie : loc) (lines : list string) (skip : nat)
    (w : world) : result scan :=
  match lines with
  | [] => Returns (Scanned w)
  | line :: lines =>
      match skip with
      | S skip => network_scan serie lines skip w
      | O =>
          let tmp := strings_Split line ":" in
          if (length tmp <? 2)%nat then Returns (Returned None (send None w))
          else
            t0 ← idx (tmp !! 0%nat);
            let iface := strings_Trim t0 " " in
            t1 ← idx (tmp !! 1%nat);
            let tmp := strings_Fields t1 in
            points ← atoi_fields tmp 0 (length network_Columns - 1) [VString iface];
            w ← append_point serie points w;
            network_scan serie lines 0 w
      end
  end.

Definition network : GatherFunc := fun prefix o w =>
  match proc_net_dev o with
  | None => Returns (Some Error, w)
  | Some lines =>
      let '(serie, w) := alloc (mkSeries (prefix +:+ "network") network_Columns []) w in
      sc ← network_scan serie lines 2 w;
      match sc with
      | Returned err w => Returns (err, w)
      | Scanned w =>
          '(res, w) ← DiffFromLast serie w;
          Returns (None, send res w)
      end
  end.

(** A line with a colon and fewer than 16 counters after it. *)
Definition short_network_line (line : string) : Prop :=
  (2 <= length (strings_Split line ":"))%nat
  /\ forall t1, strings_Split line ":" !! 1%nat = Some t1 ->
       (length (strings_Fields t1) < length network_Columns - 1)%nat.

Definition disks_Columns : list string :=
  ["device";
   "read_ios"; "read_merges"; "read_sectors"; "read_ticks";
   "write_ios"; "write_merges"; "write_sectors"; "write_ticks";
   "in_flight"; "io_ticks"; "time_in_queue"].

Fixpoint disks_scan (serie : loc) (lines : list string) (w : world)
  : result scan :=
  match lines with
  | [] => Returns (Scanned w)
  | line :: lines =>
      let tmp := strings_Fields line in
      if (length tmp <? 14)%nat then Returns (Returned None (send None w))
      else
        t2 ← idx (tmp !! 2%nat);
        points ← atoi_fields tmp 3 (length disks_Columns - 1) [VString t2];
        w ← append_point serie points w;
        disks_scan serie lines w
  end.

Definition disks : GatherFunc := fun prefix o w =>
  match proc_diskstats o with
  | None => Returns (Some Error, w)
  | Some lines =>
      let '(serie, w) := alloc (mkSeries (prefix +:+ "disks") disks_Columns []) w in
      sc ← disks_scan serie lines w;
      match sc with
      | Returned err w => Returns (err, w)
      | Scanned w =>
          '(res, w) ← DiffFromLast serie w;
          Returns (None, send res w)
      end
  end.

Definition sysfs : list string :=
  ["binfmt_misc"; "cgroup"; "configfs"; "debugfs"; "devpts"; "devtmpfs";
   "efivarfs"; "fusectl"; "mqueue"; "none"; "proc"; "rootfs"; "securityfs";
   "sysfs"; "rpc_pipefs"; "fuse.gvfsd-fuse"; "tmpfs"].

(** [uint64] multiplication, and [uint64(fs.Bsize)]. *)
Definition mul64 (x y : Z) : Z := (x * y) mod 2 ^ 64.
Definition to_uint64 (x : Z) : Z := x mod 2 ^ 64.

Fixpoint mounts_scan (o : os) (serie : loc) (lines : list string) (w : world)
  : result scan :=
  match lines with
  | [] => Returns (Scanned w)
  | line :: lines =>
      let tmp := strings_Fields line in
      t2 ← idx (tmp !! 2%nat);
      if negb (stringInSlice t2 sysfs) then
        t0 ← idx (tmp !! 0%nat);
        if negb (String.eqb t0 "none") then
          t1 ← idx (tmp !! 1%nat);
          match syscall_Statfs o t1 with
          | None => Returns (Returned (Some Error) w)
          | Some fs =>
              let freeBytes := mul64 (Bfree fs) (to_uint64 (Bsize fs)) in
              let totalBytes := mul64 (Blocks fs) (to_uint64 (Bsize fs)) in
              w ← append_point serie
                    [VString t1; VString t0; VInt Uint64 freeBytes;
                     VInt Uint64 totalBytes] w;
              mounts_scan o serie lines w
          end
        else mounts_scan o serie lines w
      else mounts_scan o serie lines w
  end.

Definition mounts : GatherFunc := fun prefix o w =>
  let '(serie, w) :=
    alloc (mkSeries (prefix +:+ "mounts") ["mountpoint"; "disk"; "free"; "total"] []) w in
  match proc_mounts o with
  | None => Returns (Some Error, w)
  | Some lines =>
      sc ← mounts_scan o serie lines w;
      match sc with
      | Returned err w => Returns (err, w)
      | Scanned w => Returns (None, send (Some serie) w)
      end
  end.

(** *** The collecting loop of [main] *)

(** The [case] of the switch that builds [collectList]. *)
Definition collect_option (c : string) : option GatherFunc :=
  let c := strings_Trim c " " in
  if String.eqb c "cpu" then Some cpu
  else if String.eqb c "cpus" then Some cpus
  else if String.eqb c "mem" then Some mem
  else if String.eqb c "swap" then Some swap
  else if String.eqb c "uptime" then Some uptime
  else if String.eqb c "load" then Some load
  else if String.eqb c "network" then Some network
  else if String.eqb c "disks" then Some disks
  else if String.eqb c "mounts" then Some mounts
  else None.

(** The loop that builds [collectList] from the parts of [collectFlag];
    [None] when [main] returns on an unknown option. *)
Fixpoint build_collectList (parts : list string) (collectList : list GatherFunc)
  : option (list GatherFunc) :=
  match parts with
  | [] => Some collectList
  | c :: parts =>
      match collect_option c with
      | Some cl => build_collectList parts (collectList ++ [cl])
      | None => None
      end
  end.

(** [for _, cl := range collectList { go cl(prefixFlag, ch) }]: the
    goroutines are run one after the other, in the order they are
    started; a panic in one of them ends the process. *)
Fixpoint launch (fl : flags) (collectList : list GatherFunc) (o : os)
    (w : world) : result world :=
  match collectList with
  | [] => Returns w
  | cl :: collectList =>
      '(_, w) ← cl (prefixFlag fl) o w;
      launch fl collectList o w
  end.

(** [for i := len(collectList); i > 0; i-- { res := <-ch ... }]; with
    every goroutine finished, a receive on the empty channel never
    returns. *)
Fixpoint collect (fl : flags) (i : nat) (data : list loc) (first : bool)
    (w : world) : run (list loc * bool * world) :=
  match i with
  | O => Done (data, first, w)
  | S i =>
      match chan w with
      | [] => Blocked
      | res :: rest =>
          let w := mkWorld (heap w) (last_series w) rest in
          match res with
          | Some p => collect fl i (data ++ [p]) first w
          | None => collect fl i data (if daemonFlag fl then first else true) w
          end
      end
  end.

(** The [fqdnFlag] block. *)
Definition add_fqdn (o : os) (data : list loc) (w : world) : result world :=
  foldl (fun (r : result world) (p : loc) =>
    w ← r;
    serie ← idx (heap w !! p);
    Returns (set_heap w
      (<[p := mkSeries (Name serie) (Columns serie ++ ["fqdn"])
                (map (fun value => value ++ [VString (hostname_f o)]) (Points serie))]>
         (heap w)))) (Returns w) data.

Definition deref (w : world) (data : list loc) : list Series :=
  omap (fun p => heap w !! p) data.

(** What the body of the loop does after the data is collected: the
    events in order, and the world. *)
Definition emit (fl : flags) (o : os) (data : list loc) (first : bool)
    (w : world) : result (list event * world) :=
  '(evs, w) ←
    (if first then Returns ([], w)
     else
       w ← (if fqdnFlag fl then add_fqdn o data w else Returns w);
       let shown :=
         if negb first && (String.eqb (databaseFlag fl) "" || negb (String.eqb (verboseFlag fl) ""))
         then
           if String.eqb (strings_ToLower (verboseFlag fl)) "text" || String.eqb (verboseFlag fl) ""
           then [Print (deref w data)]
           else [PrintJSON (deref w data)]
         else [] in
       let sent :=
         if negb (String.eqb (databaseFlag fl) "") then [WriteSeries (deref w data)] else [] in
       Returns (shown ++ sent, w));
  Returns (evs ++ (if daemonFlag fl || first then [Sleep (daemonIntervalFlag fl)] else []), w).

(** One turn of [for first || daemonFlag { ... }]: its events, the value
    of [first] at its end, and the world. *)
Definition lap (fl : flags) (collectList : list GatherFunc) (o : os)
    (w : world) : run (list event * bool * world) :=
  match launch fl collectList o w with
  | Panics => Crashed
  | Returns w =>
      match collect fl (length collectList) [] false w with
      | Done (data, first, w) =>
          match emit fl o data first w with
          | Panics => Crashed
          | Returns (evs, w) => Done (evs, first, w)
          end
      | Blocked => Blocked
      | Crashed => Crashed
      end
  end.

(** The loop, for at most [fuel] turns: the events of the turns run, and
    whether the loop has ended. [oracle k] is what the system answers
    during turn [k]. *)
Fixpoint laps (fuel : nat) (fl : flags) (collectList : list GatherFunc)
    (oracle : nat -> os) (k : nat) (w : world) : run (list (list event) * bool) :=
  match fuel with
  | O => Done ([], false)
  | S fuel =>
      match lap fl collectList (oracle k) w with
      | Done (evs, first, w) =>
          if first || daemonFlag fl then
            match laps fuel fl collectList oracle (S k) w with
            | Done (rest, ended) => Done (evs :: rest, ended)
            | Blocked => Blocked
            | Crashed => Crashed
            end
          else Done ([evs], true)
      | Blocked => Blocked
      | Crashed => Crashed
      end
  end.

(** *** [prettyPrinter]

    What it writes to the standard output, as one string; a panic loses
    what was written before it. *)

Definition tab : string := String (Ascii.ascii_of_nat 9) "".
Definition newline : string := String (Ascii.ascii_of_nat 10) "".

(** [for i := 0; i < nbCols; i++ { fmt.Print(value[i], "\t| ") }] *)
Definition print_values (nbCols : nat) (value : list value) (out : string)
  : result string :=
  for_loop nbCols (fun i out =>
    v ← idx (value !! i);
    Returns (out +:+ fmt_Sprint v +:+ tab +:+ "| ")) out.

Fixpoint print_points (nbCols : nat) (points : list (list value)) (out : string)
  : result string :=
  match points with
  | [] => Returns out
  | value :: points =>
      out ← print_values nbCols value (out +:+ "| ");
      print_points nbCols points (out +:+ newline)
  end.

Fixpoint prettyPrinter_from (ks : nat) (series : list Series) (out : string)
  : result string :=
  match series with
  | [] => Returns out
  | serie :: series =>
      let nbCols := length (Columns serie) in
      let out := out +:+ newline +:+ "#" +:+ pretty ks +:+ ": " +:+ Name serie +:+ newline in
      let out := foldl (fun out col => out +:+ "| " +:+ col +:+ tab) out (Columns serie) in
      let out := out +:+ "|" +:+ newline in
      out ← print_points nbCols (Points serie) out;
      prettyPrinter_from (S ks) series out
  end.

Definition prettyPrinter (series : list Series) : result string :=
  prettyPrinter_from 0%nat series "".

(** *** What one call computes, cell by cell

    The functions below describe the effect of a whole call; the section
    [DiffFromLast_facts] proves that the loops above compute them. *)

(** The value [tmp] at column [j]: the cached one, or the cell itself
    when the cached row is too short. *)
Definition previous (crow : list value) (j : nat) (cell : value) : value :=
  default cell (crow !! j).

(** Whether the type assertion of the switch succeeds. *)
Definition assertable (cell tmp : value) : bool :=
  match cell, tmp with
  | VInt k _, VInt k' _ => bool_decide (k' = k)
  | VInt _ _, _ => false
  | _, _ => true
  end.

(** The cell after the switch. *)
Definition delta (cell tmp : value) : value :=
  match cell, tmp with
  | VInt k x, VInt _ y => VInt k (scaled_diff k x y)
  | _, _ => cell
  end.

Definition diffed_row (crow prow : list value) : list value :=
  imap (fun j cell => delta cell (previous crow j cell)) prow.

Definition merged_row (crow prow : list value) : list value :=
  prow ++ drop (length prow) crow.

Definition row_at (rows : list (list value)) (i : nat) : list value :=
  default [] (rows !! i).

Definition diffed_points (rows pts : list (list value)) : list (list value) :=
  imap (fun i prow => diffed_row (row_at rows i) prow) pts.

Definition merged_rows (rows pts : list (list value)) : list (list value) :=
  imap (fun i prow => merged_row (row_at rows i) prow) pts
  ++ drop (length pts) rows.

(** Some cell of the first [n] rows of [pts] has no cached predecessor. *)
Definition has_new (rows pts : list (list value)) (n : nat) : bool :=
  existsb id (take n (imap (fun i prow =>
    (length (row_at rows i) <? length prow)%nat) pts)).

Definition row_compatible (crow prow : list value) : bool :=
  forallb id (imap (fun j cell => assertable cell (previous crow j cell)) prow).

(** No type assertion of the call fails. *)
Definition compatible (rows pts : list (list value)) : bool :=
  forallb id (imap (fun i prow => row_compatible (row_at rows i) prow) pts).

(** The world after a call on the series [serie] at [p]. *)
Definition diffed_world (w : world) (p : loc) (serie : Series) : world :=
  let rows := cached w (Name serie) in
  mkWorld
    (<[p := set_Points serie (diffed_points rows (Points serie))]> (heap w))
    (<[Name serie := merged_rows rows (Points serie)]> (last_series w))
    (chan w).

(** The state of the inner loop at row [i] before column [j], entered
    with flag [nc] in a world [w] where the series at [p] is [serie], its
    row [i] is [prow] and the cached row [i] is [crow]. *)
Definition inner_state (w : world) (p : loc) (serie : Series) (i : nat)
    (crow prow : list value) (nc : bool) (j : nat) : world * bool :=
  (mkWorld
     (<[p := set_Points serie
              (<[i := take j (diffed_row crow prow) ++ drop j prow]> (Points serie))]>
        (heap w))
     (<[Name serie := <[i := take j prow ++ drop j crow]> (cached w (Name serie))]>
        (last_series w))
     (chan w),
   nc || (length crow <? j)%nat).

(** The state of the outer loop before row [i], for a call on [serie] at
    [p] entered in [w]. *)
Definition outer_state (w : world) (p : loc) (serie : Series) (i : nat)
  : world * bool :=
  let rows := cached w (Name serie) in
  let pts := Points serie in
  (mkWorld
     (<[p := set_Points serie (take i (diffed_points rows pts) ++ drop i pts)]>
        (heap w))
     (<[Name serie := take i (merged_rows rows pts) ++ drop i rows]>
        (last_series w))
     (chan w),
   has_new rows pts i).

End Program.

(** ** What a gathering function leaves behind

    The result of a gathering function that built the series [name],
    [cols], [rows] at a fresh address and sent that address, the cache
    untouched; and the result of one that sent nil and returned its
    error. *)
Definition sent_as_built (name : string) (cols : list string)
    (rows : list (list value)) (w : world) : option error * world :=
  (None,
   mkWorld (heap w ++ [mkSeries name cols rows]) (last_series w)
           (chan w ++ [Some (length (heap w))])).

Definition sent_nil (name : string) (cols : list string) (w : world)
  : option error * world :=
  (Some Error,
   mkWorld (heap w ++ [mkSeries name cols []]) (last_series w) (chan w ++ [None])).

(** A row of [mounts]: mount point, device, and the free and total
    bytes computed from what [syscall.Statfs] answered for the mount
    point. *)
Definition mount_row (o : os) (row : list value) : Prop :=
  exists t0 t1 fs,
    syscall_Statfs o t1 = Some fs
    /\ row = [VString t1; VString t0;
              VInt Uint64 (mul64 (Bfree fs) (to_uint64 (Bsize fs)));
              VInt Uint64 (mul64 (Blocks fs) (to_uint64 (Bsize fs)))].

(** ** Concrete runs

    A platform whose out-of-range conversions give the smallest [int64]
    (wrapped into the type), and small series and worlds. *)

Definition conv_indefinite (k : intkind) (x : spec_float) : Z := - 2 ^ 63.

Definition cpu_series (total : Z) : Series :=
  mkSeries "cpu" ["id"; "total"] [[VString "cpu"; VInt Uint64 total]].

(** The series of a second lap, the first one having seen [total = 100]. *)
Definition second_lap : world :=
  mkWorld [cpu_series 150] {["cpu" := [[VString "cpu"; VInt Uint64 100]]]} [].

Definition second_call : result (option loc * world) :=
  DiffFromLast GOARCH64 conv_indefinite F64.one 0%nat second_lap.

Definition empty_world : world := mkWorld [] ∅ [].

(** A first lap: the name was never seen. *)
Definition first_lap : world := mkWorld [cpu_series 100] ∅ [].

Definition first_call : result (option loc * world) :=
  DiffFromLast GOARCH64 conv_indefinite F64.one 0%nat first_lap.

(** A series without rows under a name never seen, as [cpus] builds it
    when the list of processors is empty. *)
Definition no_rows : world :=
  mkWorld [mkSeries "cpus" ["id"; "user"; "nice"; "sys"; "idle"; "wait"; "total"] []]
          ∅ [].

Definition no_rows_call : result (option loc * world) :=
  DiffFromLast GOARCH64 conv_indefinite F64.one 0%nat no_rows.

(** Two disks were seen; the next series has one row, the one after it
    two rows again. *)
Definition disks_series (rows : list (list value)) : Series :=
  mkSeries "disks" ["device"; "read_ios"] rows.

Definition one_disk_lap : world :=
  mkWorld [disks_series [[VString "sda"; VInt Int 15]];
           disks_series [[VString "sda"; VInt Int 18]; [VString "sdb"; VInt Int 50]]]
          {["disks" := [[VString "sda"; VInt Int 10]; [VString "sdb"; VInt Int 20]]]}
          [].

Definition one_disk_call : result (option loc * world) :=
  DiffFromLast GOARCH64 conv_indefinite F64.one 0%nat one_disk_lap.

Definition two_disks_call : result (option loc * world) :=
  DiffFromLast GOARCH64 conv_indefinite F64.one 1%nat
    (world_after one_disk_call one_disk_lap).

(** A 32-bit counter that went from 10 back to 9. *)
Definition reset_lap : world :=
  mkWorld [mkSeries "net" ["rx"] [[VInt Uint32 9]]]
          {["net" := [[VInt Uint32 10]]]} [].

Definition reset_call : result (option loc * world) :=
  DiffFromLast GOARCH64 conv_indefinite F64.one 0%nat reset_lap.

(** What the system answers when only the processor counters matter. *)
Definition cpu_os (total : Z) : os :=
  mkOs (Some (mkCpu 10 0 5 80 5 total)) [] None None None None
       None None None (fun _ => None) "".

(** Two laps of [cpu] from an empty world: the [total] cell of the
    series sent at the second lap. *)
Definition two_laps_total (goarch : arch)
    (conv_unrepresentable : intkind -> spec_float -> Z) (f : F64.t)
    (total1 total2 : Z) : option value :=
  match cpu goarch conv_unrepresentable f "" (cpu_os total1) empty_world with
  | Returns (_, w1) =>
      match cpu goarch conv_unrepresentable f "" (cpu_os total2) w1 with
      | Returns (_, w2) =>
          match last (chan w2) with
          | Some (Some p) => cell (points_at w2 p) 0 6
          | _ => None
          end
      | Panics => None
      end
  | Panics => None
  end.

(** One-shot mode with the default interval of one second, nothing
    shown in JSON, no database. *)
Definition one_shot : flags := mkFlags false false 1000000000 "" "" "".

(** A [strings.ToLower] for the runs below, where [verboseFlag] is empty. *)
Definition lower_of_empty (s : string) : string := s.

(** The events of a turn and the value of [first] at its end. *)
Definition lap_events (r : run (list event * bool * world))
  : option (list event * bool) :=
  match r with
  | Done (evs, first, _) => Some (evs, first)
  | _ => None
  end.

(** The first turn of a one-shot run that collects [cpu] only. *)
Definition first_cpu_lap : run (list event * bool * world) :=
  lap lower_of_empty one_shot [cpu GOARCH64 conv_indefinite F64.one]
      (cpu_os 100) empty_world.

Definition world_of_lap (r : run (list event * bool * world)) (w : world)
  : world :=
  match r with
  | Done (_, _, w') => w'
  | _ => w
  end.

(** A system on which [/proc/net/dev], [/proc/diskstats] and
    [/proc/mounts] cannot be opened and gosigar finds no memory data. *)
Definition no_proc : os := cpu_os 100.

(** A cached value of another type than the one of the new cell. *)
Definition mismatch_lap : world :=
  mkWorld [cpu_series 150] {["cpu" := [[VString "cpu"; VInt Int 100]]]} [].

(** A counter that did not move. *)
Definition stable_lap : world :=
  mkWorld [cpu_series 100] {["cpu" := [[VString "cpu"; VInt Uint64 100]]]} [].

Definition stable_call : result (option loc * world) :=
  DiffFromLast GOARCH64 conv_indefinite F64.one 0%nat stable_lap.

(** The series of two laps side by side, nothing cached yet. *)
Definition two_series : world := mkWorld [cpu_series 100; cpu_series 150] ∅ [].

Definition call_on_first : result (option loc * world) :=
  DiffFromLast GOARCH64 conv_indefinite F64.one 0%nat two_series.

Definition call_on_second : result (option loc * world) :=
  DiffFromLast GOARCH64 conv_indefinite F64.one 1%nat
    (world_after call_on_first two_series).

(** Stand-ins for Go's string functions on ASCII input: splitting at the
    first byte of the separator, the first space-separated word as the
    trimmed string, the space-separated words as the fields, and decimal
    numbers. *)
Fixpoint split_at (sep : ascii) (s : string) : list string :=
  match s with
  | EmptyString => [EmptyString]
  | String c s =>
      if Ascii.eqb c sep then EmptyString :: split_at sep s
      else match split_at sep s with
           | h :: t => String c h :: t
           | [] => [String c EmptyString]
           end
  end.

Definition ascii_Split (s sep : string) : list string :=
  match sep with
  | String c _ => split_at c s
  | EmptyString => [s]
  end.

Definition ascii_Trim (s cutset : string) : string := default "" (head (String.words s)).

Definition ascii_Fields (s : string) : list string := String.words s.

Definition ascii_Atoi (s : string) : option Z :=
  Z.of_int <$> NilZero.int_of_string s.

Definition ascii_network : GatherFunc :=
  network GOARCH64 conv_indefinite F64.one ascii_Split ascii_Trim ascii_Fields ascii_Atoi.

Definition ascii_disks : GatherFunc :=
  disks GOARCH64 conv_indefinite F64.one ascii_Fields ascii_Atoi.

(** What the system answers in the runs below: two processors, memory
    figures, one interface, one disk, one mount whose [Statfs] fails. *)
Definition host : os :=
  mkOs (Some (mkCpu 10 0 5 80 5 100))
       [mkCpu 6 0 3 40 1 50; mkCpu 4 0 2 40 4 50]
       (Some (mkMem 2000 6000 3000 5000 8000))
       None None None
       (Some ["Inter-|   Receive"; " face |bytes"; "  eth0: 1 2 3 4 5 6 7 8 9 10 11 12 13 14 15 16"])
       (Some ["   8       0 sda 1 2 3 4 5 6 7 8 9 10 11"])
       (Some ["/dev/sda1 / ext4 rw 0 0"; "short"])
       (fun _ => None) "host.example.org".

(** [/proc/net/dev] with a line without colon before a line that is too
    short. *)
Definition host_with_bad_lines : os :=
  mkOs None [] None None None None
       (Some ["Inter-|   Receive"; " face |bytes"; "no colon here"; "  eth0: 1 2 3"])
       None None (fun _ => None) "".

Definition daemon : flags := mkFlags true false 1000000000 "" "" "db".

(** The turns run by the loop and whether it has ended. *)
Definition laps_trace (r : run (list (list event) * bool)) : list (list event) :=
  match r with
  | Done (evss, _) => evss
  | _ => []
  end.

Definition laps_ended (r : run (list (list event) * bool)) : bool :=
  match r with
  | Done (_, ended) => ended
  | _ => false
  end.

Definition cpu_run : result (option error * world) :=
  cpu GOARCH64 conv_indefinite F64.one "" host empty_world.

Definition cpus_run : result (option error * world) :=
  cpus GOARCH64 conv_indefinite F64.one "" host empty_world.

Definition network_run : result (option error * world) :=
  ascii_network "" host empty_world.

Definition bad_network_run : result (option error * world) :=
  ascii_network "" host_with_bad_lines empty_world.

Definition mounts_run : result (option error * world) :=
  mounts ascii_Fields "" host empty_world.

(** One turn in daemon mode collecting [mem] and [cpu]; two turns in
    daemon mode and three in one-shot mode collecting [cpu]. *)
Definition daemon_lap : run (list event * bool * world) :=
  lap lower_of_empty daemon [mem; cpu GOARCH64 conv_indefinite F64.one] host empty_world.

Definition daemon_laps : run (list (list event) * bool) :=
  laps lower_of_empty 2 daemon [cpu GOARCH64 conv_indefinite F64.one]
       (fun _ => host) 0 empty_world.

Definition one_shot_laps : run (list (list event) * bool) :=
  laps lower_of_empty 3 one_shot [cpu GOARCH64 conv_indefinite F64.one]
       (fun _ => host) 0 empty_world.

(** The second turn of the one-shot run on [cpu]. *)
Definition second_cpu_lap : run (list event * bool * world) :=
  lap lower_of_empty one_shot [cpu GOARCH64 conv_indefinite F64.one] host
      (world_of_lap first_cpu_lap empty_world).

(** * Properties *)

Local Close Scope Z_scope.

(** ** Loops and in-place updates *)

Section loops.
Context {S : Type}.
Implicit Types (body : nat -> S -> result S) (st : nat -> S).

Lemma for_from_states body st n i :
  (forall k, i <= k < i + n -> body k (st k) = Returns (st (Datatypes.S k))) ->
  for_from n i body (st i) = Returns (st (i + n)).
Proof.
  revert i. induction n as [|n IH]; intros i Hstep; simpl.
  - by rewrite Nat.add_0_r.
  - rewrite Hstep by lia. simpl.
    rewrite IH; [f_equal; f_equal; lia|]. intros k Hk. apply Hstep. lia.
Qed.

Lemma for_loop_states body st n :
  (forall k, k < n -> body k (st k) = Returns (st (Datatypes.S k))) ->
  for_loop n body (st 0) = Returns (st n).
Proof.
  intros Hstep. unfold for_loop. rewrite (for_from_states body st n 0); [done|].
  intros k Hk. apply Hstep. lia.
Qed.

Lemma for_from_panics body st n i k :
  (forall k', i <= k' < k -> body k' (st k') = Returns (st (Datatypes.S k'))) ->
  i <= k < i + n ->
  body k (st k) = Panics ->
  for_from n i body (st i) = Panics.
Proof.
  revert i. induction n as [|n IH]; intros i Hstep Hk Hp; simpl; [lia|].
  destruct (decide (i = k)) as [->|Hne].
  - by rewrite Hp.
  - rewrite Hstep by lia. simpl. apply IH; [|lia|done].
    intros k' Hk'. apply Hstep. lia.
Qed.

Lemma for_loop_panics body st n k :
  (forall k', k' < k -> body k' (st k') = Returns (st (Datatypes.S k'))) ->
  k < n ->
  body k (st k) = Panics ->
  for_loop n body (st 0) = Panics.
Proof.
  intros Hstep Hk Hp. unfold for_loop. apply (for_from_panics body st n 0 k); [|lia|done].
  intros k' Hk'. apply Hstep. lia.
Qed.
End loops.

Section steps.
Context {A : Type}.
Implicit Types (xs ys : list A).

Lemma overwrite_step xs ys j x :
  xs !! j = Some x -> j < length ys ->
  <[j := x]> (take j xs ++ drop j ys) = take (Datatypes.S j) xs ++ drop (Datatypes.S j) ys.
Proof.
  intros Hx Hj. pose proof (lookup_lt_Some _ _ _ Hx) as Hlt.
  rewrite (take_S_r _ _ _ Hx).
  destruct (lookup_lt_is_Some_2 ys j Hj) as [y Hy].
  rewrite (drop_S _ _ _ Hy).
  rewrite insert_app_r_alt by (rewrite length_take; lia).
  rewrite length_take, Nat.min_l, Nat.sub_diag by lia. simpl.
  by rewrite <- app_assoc.
Qed.

Lemma append_step xs ys j x :
  xs !! j = Some x -> length ys <= j ->
  (take j xs ++ drop j ys) ++ [x] = take (Datatypes.S j) xs ++ drop (Datatypes.S j) ys.
Proof.
  intros Hx Hj. rewrite (take_S_r _ _ _ Hx).
  by rewrite !drop_ge, !app_nil_r by lia.
Qed.

Lemma length_take_drop xs ys j :
  j <= length xs -> length (take j xs ++ drop j ys) = j + (length ys - j).
Proof. intros Hj. rewrite length_app, length_take, length_drop. lia. Qed.

Lemma lookup_take_drop_here xs ys j :
  j <= length xs -> (take j xs ++ drop j ys) !! j = ys !! j.
Proof.
  intros Hj. rewrite lookup_app_r by (rewrite length_take; lia).
  rewrite length_take, Nat.min_l, Nat.sub_diag, lookup_drop by lia.
  f_equal. lia.
Qed.
Lemma forallb_imap_true (f : nat -> A -> bool) xs :
  forallb id (imap f xs) = true <-> forall i x, xs !! i = Some x -> f i x = true.
Proof.
  revert f. induction xs as [|a xs IH]; intros f; simpl.
  - split; [intros _ i x Hi; by rewrite lookup_nil in Hi|done].
  - rewrite andb_true_iff, IH. split.
    + intros [H0 HS] [|i] x Hi; simpl in Hi; [by inversion Hi; subst|by apply HS].
    + intros H. split; [by apply (H 0)|]. intros i x Hi. by apply (H (Datatypes.S i)).
Qed.

Lemma forallb_imap_false (f : nat -> A -> bool) xs :
  forallb id (imap f xs) = false ->
  exists i x, xs !! i = Some x /\ f i x = false /\
    forall k y, k < i -> xs !! k = Some y -> f k y = true.
Proof.
  revert f. induction xs as [|a xs IH]; intros f; simpl; [done|].
  destruct (f 0 a) eqn:H0; simpl.
  - intros H. destruct (IH _ H) as (i & x & Hi & Hf & Hlt).
    exists (Datatypes.S i), x. repeat split; try done.
    intros [|k] y Hk Hy; simpl in Hy; [by inversion Hy; subst|].
    apply (Hlt k y); [lia|done].
  - intros _. exists 0, a. repeat split; try done. intros k y Hk. lia.
Qed.
End steps.

(** ** The loops of [DiffFromLast] *)

Section DiffFromLast_facts.
Variable goarch : arch.
Variable conv_unrepresentable : intkind -> spec_float -> Z.
Variable consistencyFactor : F64.t.

Local Abbreviation diff_switch := (diff_switch goarch conv_unrepresentable consistencyFactor).
Local Abbreviation delta := (delta goarch conv_unrepresentable consistencyFactor).
Local Abbreviation diffed_row := (diffed_row goarch conv_unrepresentable consistencyFactor).
Local Abbreviation diffed_points := (diffed_points goarch conv_unrepresentable consistencyFactor).
Local Abbreviation diff_cell := (diff_cell goarch conv_unrepresentable consistencyFactor).
Local Abbreviation diff_row := (diff_row goarch conv_unrepresentable consistencyFactor).
Local Abbreviation inner_state := (inner_state goarch conv_unrepresentable consistencyFactor).
Local Abbreviation outer_state := (outer_state goarch conv_unrepresentable consistencyFactor).
Local Abbreviation diffed_world := (diffed_world goarch conv_unrepresentable consistencyFactor).
Local Abbreviation DiffFromLast := (DiffFromLast goarch conv_unrepresentable consistencyFactor).

Lemma diff_switch_assertable cell tmp :
  assertable cell tmp = true ->
  diff_switch cell tmp = Returns (match cell with VInt _ _ => Some (delta cell tmp) | _ => None end).
Proof.
  destruct cell as [k x| | |], tmp as [k' y| | |]; simpl; try done.
  intros Hk. apply bool_decide_eq_true in Hk. subst k'.
  unfold assert_kind. by rewrite decide_True.
Qed.

Lemma diff_switch_not_assertable cell tmp :
  assertable cell tmp = false -> diff_switch cell tmp = Panics.
Proof.
  destruct cell as [k x| | |], tmp as [k' y| | |]; simpl; try done.
  intros Hk. apply bool_decide_eq_false in Hk.
  unfold assert_kind. by rewrite decide_False.
Qed.

Lemma delta_not_int cell tmp :
  match cell with VInt _ _ => False | _ => True end -> delta cell tmp = cell.
Proof. by destruct cell. Qed.

Lemma length_diffed_row crow prow : length (diffed_row crow prow) = length prow.
Proof. apply length_imap. Qed.

Lemma lookup_diffed_row crow prow j cell :
  prow !! j = Some cell ->
  diffed_row crow prow !! j = Some (delta cell (previous crow j cell)).
Proof. intros H. unfold diffed_row. by rewrite list_lookup_imap, H. Qed.

Lemma set_Points_Points serie : set_Points serie (Points serie) = serie.
Proof. by destruct serie. Qed.

Lemma cached_insert h (ls : gmap string (list (list value))) c name rows :
  cached (mkWorld h (<[name := rows]> ls) c) name = rows.
Proof. unfold cached. cbn [last_series]. by rewrite lookup_insert_eq. Qed.

Lemma diff_cell_step w p serie i crow prow nc j cell :
  heap w !! p = Some serie ->
  Points serie !! i = Some prow ->
  cached w (Name serie) !! i = Some crow ->
  prow !! j = Some cell ->
  assertable cell (previous crow j cell) = true ->
  diff_cell p i j (inner_state w p serie i crow prow nc j)
  = Returns (inner_state w p serie i crow prow nc (Datatypes.S j)).
Proof.
  intros Hp Hi Hc Hj Hok.
  pose proof (lookup_lt_Some _ _ _ Hp) as Hp'.
  pose proof (lookup_lt_Some _ _ _ Hi) as Hi'.
  pose proof (lookup_lt_Some _ _ _ Hc) as Hc'.
  pose proof (lookup_lt_Some _ _ _ Hj) as Hj'.
  unfold diff_cell, inner_state. cbn [heap].
  rewrite list_lookup_insert_eq by done. cbn [idx mbind result_bind Points set_Points Name].
  rewrite list_lookup_insert_eq by done. cbn [idx mbind result_bind].
  rewrite lookup_take_drop_here, Hj by (rewrite length_diffed_row; lia).
  cbn [idx mbind result_bind].
  rewrite !cached_insert.
  rewrite list_lookup_insert_eq by done. cbn [idx mbind result_bind].
  rewrite length_take_drop by lia.
  assert (Hrow : <[j := delta cell (previous crow j cell)]>
                    (take j (diffed_row crow prow) ++ drop j prow)
                  = take (Datatypes.S j) (diffed_row crow prow) ++ drop (Datatypes.S j) prow).
  { apply overwrite_step; [by apply lookup_diffed_row|done]. }
  assert (Hheap : forall t ls c, t = previous crow j cell ->
    (match (match cell with VInt _ _ => Some (delta cell t) | _ => None end) with
     | Some v =>
         set_heap (mkWorld (<[p := set_Points serie (<[i := take j (diffed_row crow prow) ++ drop j prow]> (Points serie))]> (heap w)) ls c)
           (<[p := set_Points (set_Points serie (<[i := take j (diffed_row crow prow) ++ drop j prow]> (Points serie)))
                    (<[i := <[j := v]> (take j (diffed_row crow prow) ++ drop j prow)]>
                       (<[i := take j (diffed_row crow prow) ++ drop j prow]> (Points serie)))]>
              (<[p := set_Points serie (<[i := take j (diffed_row crow prow) ++ drop j prow]> (Points serie))]> (heap w)))
     | None =>
         mkWorld (<[p := set_Points serie (<[i := take j (diffed_row crow prow) ++ drop j prow]> (Points serie))]> (heap w)) ls c
     end)
    = mkWorld (<[p := set_Points serie (<[i := take (Datatypes.S j) (diffed_row crow prow) ++ drop (Datatypes.S j) prow]> (Points serie))]> (heap w)) ls c).
  { intros t ls c ->. rewrite <- Hrow.
    destruct cell; unfold set_heap, set_Points; cbn [heap last_series chan Name Columns Points];
      rewrite ?list_insert_insert_eq; try done.
    all: rewrite delta_not_int by done.
    all: rewrite (list_insert_id (take j _ ++ _) j); [done|].
    all: by rewrite lookup_take_drop_here by (rewrite length_diffed_row; lia). }
  destruct (Nat.leb_spec (j + (length crow - j)) j) as [Hle|Hgt].
  - assert (Hcl : length crow <= j) by lia.
    assert (Hprev : previous crow j cell = cell).
    { unfold previous. by rewrite (lookup_ge_None_2 crow j Hcl). }
    rewrite Hprev in Hok.
    cbn [idx mbind result_bind]. rewrite (diff_switch_assertable _ _ Hok).
    cbn [idx mbind result_bind].
    rewrite (append_step prow crow j cell) by done.
    unfold set_last_series. cbn [heap last_series chan].
    rewrite insert_insert_eq, list_insert_insert_eq.
    rewrite Hheap by done.
    do 2 f_equal. rewrite orb_true_r || (destruct nc; simpl; try done).
    all: try (symmetry; apply Nat.ltb_lt; lia).
  - assert (Hcl : j < length crow) by lia.
    destruct (lookup_lt_is_Some_2 crow j Hcl) as [old Hold].
    assert (Hprev : previous crow j cell = old).
    { unfold previous. by rewrite Hold. }
    rewrite Hprev in Hok.
    rewrite lookup_take_drop_here, Hold by lia.
    cbn [idx mbind result_bind]. rewrite (diff_switch_assertable _ _ Hok).
    cbn [idx mbind result_bind].
    rewrite (overwrite_step prow crow j cell) by done.
    unfold set_last_series. cbn [heap last_series chan].
    rewrite insert_insert_eq, list_insert_insert_eq. rewrite Hheap by done.
    do 2 f_equal.
    replace (length crow <? j)%nat with false by (symmetry; apply Nat.ltb_ge; lia).
    replace (length crow <? Datatypes.S j)%nat with false by (symmetry; apply Nat.ltb_ge; lia).
    done.
Qed.

Lemma inner_state_0 w p serie i crow prow nc :
  heap w !! p = Some serie ->
  Points serie !! i = Some prow ->
  cached w (Name serie) !! i = Some crow ->
  inner_state w p serie i crow prow nc 0 = (w, nc).
Proof.
  intros Hp Hi Hc. unfold inner_state.
  rewrite !take_0, !drop_0. cbn [app].
  rewrite (list_insert_id _ _ _ Hi), set_Points_Points, (list_insert_id _ _ _ Hp).
  rewrite (list_insert_id _ _ _ Hc).
  assert (Hkey : last_series w !! Name serie = Some (cached w (Name serie))).
  { unfold cached in *. destruct (last_series w !! Name serie); [done|].
    simpl in Hc. by rewrite lookup_nil in Hc. }
  rewrite (insert_id _ _ _ Hkey). rewrite orb_false_r. by destruct w.
Qed.

Lemma inner_loop w p serie i crow prow nc :
  heap w !! p = Some serie ->
  Points serie !! i = Some prow ->
  cached w (Name serie) !! i = Some crow ->
  row_compatible crow prow = true ->
  for_loop (length prow) (diff_cell p i) (w, nc)
  = Returns (inner_state w p serie i crow prow nc (length prow)).
Proof.
  intros Hp Hi Hc Hok.
  rewrite <- (inner_state_0 w p serie i crow prow nc Hp Hi Hc) at 1.
  apply (for_loop_states _ (inner_state w p serie i crow prow nc)).
  intros j Hj. destruct (lookup_lt_is_Some_2 prow j Hj) as [cell Hcell].
  apply (diff_cell_step _ _ _ _ _ _ _ _ cell); try done.
  unfold row_compatible in Hok.
  by apply (proj1 (forallb_imap_true _ _) Hok j cell).
Qed.

Lemma diff_cell_panics w p serie i crow prow nc j cell :
  heap w !! p = Some serie ->
  Points serie !! i = Some prow ->
  cached w (Name serie) !! i = Some crow ->
  prow !! j = Some cell ->
  assertable cell (previous crow j cell) = false ->
  diff_cell p i j (inner_state w p serie i crow prow nc j) = Panics.
Proof.
  intros Hp Hi Hc Hj Hbad.
  pose proof (lookup_lt_Some _ _ _ Hp) as Hp'.
  pose proof (lookup_lt_Some _ _ _ Hi) as Hi'.
  pose proof (lookup_lt_Some _ _ _ Hc) as Hc'.
  pose proof (lookup_lt_Some _ _ _ Hj) as Hj'.
  unfold diff_cell, inner_state. cbn [heap].
  rewrite list_lookup_insert_eq by done. cbn [idx mbind result_bind Points set_Points Name].
  rewrite list_lookup_insert_eq by done. cbn [idx mbind result_bind].
  rewrite lookup_take_drop_here, Hj by (rewrite length_diffed_row; lia).
  cbn [idx mbind result_bind].
  rewrite !cached_insert.
  rewrite list_lookup_insert_eq by done. cbn [idx mbind result_bind].
  rewrite length_take_drop by lia.
  destruct (Nat.leb_spec (j + (length crow - j)) j) as [Hle|Hgt].
  - assert (Hcl : length crow <= j) by lia.
    unfold previous in Hbad. rewrite (lookup_ge_None_2 crow j Hcl) in Hbad.
    cbn [default] in Hbad.
    cbn [idx mbind result_bind]. by rewrite (diff_switch_not_assertable _ _ Hbad).
  - assert (Hcl : j < length crow) by lia.
    destruct (lookup_lt_is_Some_2 crow j Hcl) as [old Hold].
    unfold previous in Hbad. rewrite Hold in Hbad. simpl in Hbad.
    rewrite lookup_take_drop_here, Hold by lia.
    cbn [idx mbind result_bind]. by rewrite (diff_switch_not_assertable _ _ Hbad).
Qed.

Lemma inner_loop_panics w p serie i crow prow nc :
  heap w !! p = Some serie ->
  Points serie !! i = Some prow ->
  cached w (Name serie) !! i = Some crow ->
  row_compatible crow prow = false ->
  for_loop (length prow) (diff_cell p i) (w, nc) = Panics.
Proof.
  intros Hp Hi Hc Hbad.
  destruct (forallb_imap_false _ _ Hbad) as (j & cell & Hj & Hf & Hbefore).
  rewrite <- (inner_state_0 w p serie i crow prow nc Hp Hi Hc).
  apply (for_loop_panics _ (inner_state w p serie i crow prow nc) _ j).
  - intros k Hk.
    assert (Hk' : k < length prow) by (apply lookup_lt_Some in Hj; lia).
    destruct (lookup_lt_is_Some_2 prow k Hk') as [c Hc'].
    apply (diff_cell_step _ _ _ _ _ _ _ _ c); try done. by apply (Hbefore k c).
  - by eapply lookup_lt_Some.
  - by apply (diff_cell_panics _ _ _ _ _ _ _ _ cell).
Qed.

Lemma lookup_diffed_points rows pts i prow :
  pts !! i = Some prow ->
  diffed_points rows pts !! i = Some (diffed_row (row_at rows i) prow).
Proof. intros H. unfold diffed_points. by rewrite list_lookup_imap, H. Qed.

Lemma length_diffed_points rows pts : length (diffed_points rows pts) = length pts.
Proof. apply length_imap. Qed.

Lemma lookup_merged_rows rows pts i prow :
  pts !! i = Some prow ->
  merged_rows rows pts !! i = Some (merged_row (row_at rows i) prow).
Proof.
  intros H. unfold merged_rows. rewrite lookup_app_l.
  - by rewrite list_lookup_imap, H.
  - rewrite length_imap. by eapply lookup_lt_Some.
Qed.

Lemma length_merged_rows rows pts :
  length (merged_rows rows pts) = length pts + (length rows - length pts).
Proof. unfold merged_rows. by rewrite length_app, length_imap, length_drop. Qed.

Lemma has_new_S rows pts i prow :
  pts !! i = Some prow ->
  has_new rows pts (Datatypes.S i)
  = has_new rows pts i || (length (row_at rows i) <? length prow)%nat.
Proof.
  intros H. unfold has_new.
  rewrite (take_S_r _ _ ((length (row_at rows i) <? length prow)%nat)).
  - rewrite existsb_app. simpl. by rewrite orb_false_r.
  - by rewrite list_lookup_imap, H.
Qed.

Lemma diff_row_enter w p serie i prow :
  heap w !! p = Some serie ->
  is_Some (last_series w !! Name serie) ->
  Points serie !! i = Some prow ->
  let rows := cached w (Name serie) in
  let pts := Points serie in
  exists w1 C',
    diff_row p i (outer_state w p serie i)
    = for_loop (length prow) (diff_cell p i) (w1, has_new rows pts i)
    /\ heap w1 = <[p := set_Points serie (take i (diffed_points rows pts) ++ drop i pts)]> (heap w)
    /\ chan w1 = chan w
    /\ last_series w1 = <[Name serie := C']> (last_series w)
    /\ C' !! i = Some (row_at rows i)
    /\ <[i := merged_row (row_at rows i) prow]> C'
       = take (Datatypes.S i) (merged_rows rows (Points serie)) ++ drop (Datatypes.S i) rows.
Proof.
  intros Hp [rows0 Hrows] Hi rows pts. subst rows pts.
  set (rows := cached w (Name serie)).
  pose proof (lookup_lt_Some _ _ _ Hp) as Hp'.
  pose proof (lookup_lt_Some _ _ _ Hi) as Hi'.
  unfold diff_row, outer_state. fold rows. cbn [heap].
  rewrite list_lookup_insert_eq by done.
  cbn [idx mbind result_bind Points set_Points Name].
  rewrite !cached_insert.
  rewrite length_take_drop by (rewrite length_merged_rows;  lia).
  rewrite lookup_take_drop_here by (rewrite length_diffed_points;  lia).
  rewrite Hi. cbn [idx mbind result_bind].
  destruct (Nat.leb_spec (i + (length rows - i)) i) as [Hle|Hgt].
  - assert (Hrl : length rows <= i) by lia.
    assert (Hcrow : row_at rows i = []).
    { unfold row_at. by rewrite (lookup_ge_None_2 rows i Hrl). }
    eexists _, _. split; [reflexivity|].
    unfold set_last_series. cbn [heap last_series chan].
    split; [done|]. split; [done|]. split; [by rewrite insert_insert_eq|].
    rewrite !drop_ge, !app_nil_r by lia.
    assert (Hlen : length (take i (merged_rows rows (Points serie))) = i).
    { rewrite length_take, length_merged_rows. lia. }
    split.
    + rewrite lookup_app_r by lia. by rewrite Hlen, Nat.sub_diag, Hcrow.
    + rewrite insert_app_r_alt by lia. rewrite Hlen, Nat.sub_diag. simpl.
      rewrite (take_S_r _ _ (merged_row (row_at rows i) prow)); [done|].
      by apply lookup_merged_rows.
  - assert (Hrl : i < length rows) by lia.
    eexists _, _. split; [reflexivity|].
    cbn [heap last_series chan].
    split; [done|]. split; [done|]. split; [done|]. split.
    + rewrite lookup_take_drop_here by (rewrite length_merged_rows;  lia).
      unfold row_at. by destruct (lookup_lt_is_Some_2 rows i Hrl) as [r ->].
    + apply overwrite_step; [by apply lookup_merged_rows|done].
Qed.

Lemma diff_row_step w p serie i prow :
  heap w !! p = Some serie ->
  is_Some (last_series w !! Name serie) ->
  Points serie !! i = Some prow ->
  row_compatible (row_at (cached w (Name serie)) i) prow = true ->
  diff_row p i (outer_state w p serie i)
  = Returns (outer_state w p serie (Datatypes.S i)).
Proof.
  intros Hp Hkey Hi Hok.
  pose proof (lookup_lt_Some _ _ _ Hp) as Hp'.
  pose proof (lookup_lt_Some _ _ _ Hi) as Hi'.
  destruct (diff_row_enter w p serie i prow Hp Hkey Hi)
    as (w1 & C' & -> & Hh & Hch & Hls & HC' & Hmerge).
  set (rows := cached w (Name serie)) in *.
  set (crow := row_at rows i) in *.
  set (serie' := set_Points serie (take i (diffed_points rows (Points serie)) ++ drop i (Points serie))) in *.
  assert (Hrow : <[i := diffed_row crow prow]>
                   (take i (diffed_points rows (Points serie)) ++ drop i (Points serie))
                 = take (Datatypes.S i) (diffed_points rows (Points serie))
                   ++ drop (Datatypes.S i) (Points serie)).
  { apply overwrite_step; [by apply lookup_diffed_points|done]. }
  assert (Hc1 : cached w1 (Name serie') = C').
  { unfold cached. rewrite Hls. cbn. by rewrite lookup_insert_eq. }
  rewrite (inner_loop w1 p serie' i crow prow).
  - unfold inner_state, outer_state. fold rows.
    rewrite Hc1, Hh, Hch, Hls.
    rewrite list_insert_insert_eq, insert_insert_eq.
    rewrite !take_ge, !drop_ge by (rewrite ?length_diffed_row; lia).
    rewrite app_nil_r. fold (merged_row crow prow). rewrite Hmerge.
    unfold serie', set_Points. cbn [Name Columns Points].
    rewrite Hrow.
    by rewrite (has_new_S _ _ _ _ Hi).
  - rewrite Hh. by apply list_lookup_insert_eq.
  - unfold serie'. cbn [Points set_Points].
    by rewrite lookup_take_drop_here by (rewrite length_diffed_points; lia).
  - by rewrite Hc1.
  - done.
Qed.

Lemma diff_row_panics w p serie i prow :
  heap w !! p = Some serie ->
  is_Some (last_series w !! Name serie) ->
  Points serie !! i = Some prow ->
  row_compatible (row_at (cached w (Name serie)) i) prow = false ->
  diff_row p i (outer_state w p serie i) = Panics.
Proof.
  intros Hp Hkey Hi Hbad.
  pose proof (lookup_lt_Some _ _ _ Hp) as Hp'.
  pose proof (lookup_lt_Some _ _ _ Hi) as Hi'.
  destruct (diff_row_enter w p serie i prow Hp Hkey Hi)
    as (w1 & C' & -> & Hh & Hch & Hls & HC' & Hmerge).
  set (rows := cached w (Name serie)) in *.
  set (serie' := set_Points serie (take i (diffed_points rows (Points serie)) ++ drop i (Points serie))) in *.
  assert (Hc1 : cached w1 (Name serie') = C').
  { unfold cached. rewrite Hls. cbn. by rewrite lookup_insert_eq. }
  apply (inner_loop_panics w1 p serie' i (row_at rows i) prow).
  - rewrite Hh. by apply list_lookup_insert_eq.
  - unfold serie'. cbn [Points set_Points].
    by rewrite lookup_take_drop_here by (rewrite length_diffed_points; lia).
  - by rewrite Hc1.
  - done.
Qed.

Lemma outer_state_0 w p serie :
  heap w !! p = Some serie ->
  is_Some (last_series w !! Name serie) ->
  outer_state w p serie 0 = (w, false).
Proof.
  intros Hp [rows Hrows]. unfold outer_state.
  assert (Hcached : cached w (Name serie) = rows) by (unfold cached; by rewrite Hrows).
  rewrite Hcached, !take_0, !drop_0. cbn [app].
  rewrite set_Points_Points, (list_insert_id _ _ _ Hp), (insert_id _ _ _ Hrows).
  by destruct w.
Qed.

Lemma outer_loop w p serie :
  heap w !! p = Some serie ->
  is_Some (last_series w !! Name serie) ->
  compatible (cached w (Name serie)) (Points serie) = true ->
  for_loop (length (Points serie)) (diff_row p) (w, false)
  = Returns (outer_state w p serie (length (Points serie))).
Proof.
  intros Hp Hkey Hok.
  rewrite <- (outer_state_0 w p serie Hp Hkey) at 1.
  apply (for_loop_states _ (outer_state w p serie)).
  intros i Hi. destruct (lookup_lt_is_Some_2 _ i Hi) as [prow Hprow].
  apply (diff_row_step _ _ _ _ prow); try done.
  unfold compatible in Hok.
  by apply (proj1 (forallb_imap_true _ _) Hok i prow).
Qed.

Lemma outer_state_end w p serie :
  outer_state w p serie (length (Points serie))
  = (diffed_world w p serie,
     has_new (cached w (Name serie)) (Points serie) (length (Points serie))).
Proof.
  unfold outer_state, diffed_world.
  rewrite (take_ge (diffed_points _ _)) by (by rewrite length_diffed_points).
  rewrite (drop_ge (Points serie)), app_nil_r by done.
  unfold merged_rows at 1. rewrite take_app_length' by (by rewrite length_imap).
  done.
Qed.

(** The loops of [DiffFromLast] compute [diffed_world]. *)
Lemma DiffFromLast_returns w p serie :
  heap w !! p = Some serie ->
  compatible (cached w (Name serie)) (Points serie) = true ->
  DiffFromLast p w
  = Returns
      (if has_new (cached w (Name serie)) (Points serie) (length (Points serie))
       then None else Some p,
       diffed_world w p serie).
Proof.
  intros Hp Hok. unfold DiffFromLast. rewrite Hp.
  cbn [idx mbind result_bind].
  set (w0 := match last_series w !! Name serie with
             | Some _ => w
             | None => set_last_series w (Name serie) []
             end).
  assert (Hheap : heap w0 = heap w) by (unfold w0; by destruct (last_series w !! _)).
  assert (Hchan : chan w0 = chan w) by (unfold w0; by destruct (last_series w !! _)).
  assert (Hcached : cached w0 (Name serie) = cached w (Name serie)).
  { unfold w0, cached. destruct (last_series w !! Name serie) eqn:E; [by rewrite E|].
    cbn. by rewrite lookup_insert_eq. }
  assert (Hkey : is_Some (last_series w0 !! Name serie)).
  { unfold w0. destruct (last_series w !! Name serie) eqn:E; [by rewrite E|].
    cbn. by rewrite lookup_insert_eq. }
  assert (Hins : forall rows, <[Name serie := rows]> (last_series w0)
                              = <[Name serie := rows]> (last_series w)).
  { intros rows. unfold w0. destruct (last_series w !! Name serie); [done|].
    cbn. by rewrite insert_insert_eq. }
  rewrite (outer_loop w0 p serie); [|by rewrite Hheap|done|by rewrite Hcached].
  rewrite outer_state_end. cbn [idx mbind result_bind].
  rewrite Hcached. do 2 f_equal.
  unfold diffed_world. by rewrite Hcached, Hheap, Hchan, Hins.
Qed.

Lemma outer_loop_panics w p serie :
  heap w !! p = Some serie ->
  is_Some (last_series w !! Name serie) ->
  compatible (cached w (Name serie)) (Points serie) = false ->
  for_loop (length (Points serie)) (diff_row p) (w, false) = Panics.
Proof.
  intros Hp Hkey Hbad.
  destruct (forallb_imap_false _ _ Hbad) as (i & prow & Hi & Hf & Hbefore).
  rewrite <- (outer_state_0 w p serie Hp Hkey).
  apply (for_loop_panics _ (outer_state w p serie) _ i).
  - intros k Hk.
    assert (Hk' : k < length (Points serie)) by (apply lookup_lt_Some in Hi; lia).
    destruct (lookup_lt_is_Some_2 _ k Hk') as [r Hr].
    apply (diff_row_step _ _ _ _ r); try done. by apply (Hbefore k r).
  - by eapply lookup_lt_Some.
  - by apply (diff_row_panics _ _ _ _ prow).
Qed.

(** A failing type assertion aborts the call. *)
Lemma DiffFromLast_panics w p serie :
  heap w !! p = Some serie ->
  compatible (cached w (Name serie)) (Points serie) = false ->
  DiffFromLast p w = Panics.
Proof.
  intros Hp Hbad. unfold DiffFromLast. rewrite Hp.
  cbn [idx mbind result_bind].
  set (w0 := match last_series w !! Name serie with
             | Some _ => w
             | None => set_last_series w (Name serie) []
             end).
  assert (Hheap : heap w0 = heap w) by (unfold w0; by destruct (last_series w !! _)).
  assert (Hcached : cached w0 (Name serie) = cached w (Name serie)).
  { unfold w0, cached. destruct (last_series w !! Name serie) eqn:E; [by rewrite E|].
    cbn. by rewrite lookup_insert_eq. }
  assert (Hkey : is_Some (last_series w0 !! Name serie)).
  { unfold w0. destruct (last_series w !! Name serie) eqn:E; [by rewrite E|].
    cbn. by rewrite lookup_insert_eq. }
  rewrite (outer_loop_panics w0 p serie); [done|by rewrite Hheap|done|by rewrite Hcached].
Qed.

Lemma DiffFromLast_nil w p :
  heap w !! p = None -> DiffFromLast p w = Panics.
Proof. intros Hp. unfold DiffFromLast. by rewrite Hp. Qed.

(** A call that returns: what it returns and the world it leaves. *)
Lemma DiffFromLast_inv w p r w' :
  DiffFromLast p w = Returns (r, w') ->
  exists serie,
    heap w !! p = Some serie
    /\ compatible (cached w (Name serie)) (Points serie) = true
    /\ r = (if has_new (cached w (Name serie)) (Points serie) (length (Points serie))
            then None else Some p)
    /\ w' = diffed_world w p serie.
Proof.
  intros H. destruct (heap w !! p) as [serie|] eqn:Hp.
  - exists serie. split; [done|].
    destruct (compatible (cached w (Name serie)) (Points serie)) eqn:Hok.
    + rewrite (DiffFromLast_returns w p serie Hp Hok) in H. by inversion H.
    + by rewrite (DiffFromLast_panics w p serie Hp Hok) in H.
  - by rewrite (DiffFromLast_nil w p Hp) in H.
Qed.

End DiffFromLast_facts.

(** ** Cells of the diffed table and of the cache *)

Section cells.
Variable goarch : arch.
Variable conv_unrepresentable : intkind -> spec_float -> Z.
Variable consistencyFactor : F64.t.

Local Abbreviation delta := (delta goarch conv_unrepresentable consistencyFactor).
Local Abbreviation diffed_points := (diffed_points goarch conv_unrepresentable consistencyFactor).
Local Abbreviation diffed_world := (diffed_world goarch conv_unrepresentable consistencyFactor).
Local Abbreviation DiffFromLast := (DiffFromLast goarch conv_unrepresentable consistencyFactor).

Lemma row_at_lookup rows i j : row_at rows i !! j = cell rows i j.
Proof. unfold row_at, cell. by destruct (rows !! i). Qed.

Lemma cell_merged_rows rows pts i j :
  cell (merged_rows rows pts) i j
  = match cell pts i j with Some v => Some v | None => cell rows i j end.
Proof.
  destruct (pts !! i) as [prow|] eqn:Hi.
  - unfold cell at 1 2. rewrite (lookup_merged_rows _ _ _ _ Hi), Hi. simpl.
    unfold merged_row. destruct (prow !! j) as [v|] eqn:Hj.
    + by rewrite (lookup_app_l_Some _ _ _ _ Hj).
    + apply lookup_ge_None_1 in Hj.
      rewrite lookup_app_r, lookup_drop, row_at_lookup by done.
      f_equal. lia.
  - unfold cell at 2. rewrite Hi. simpl.
    apply lookup_ge_None_1 in Hi. unfold cell, merged_rows.
    rewrite lookup_app_r by (by rewrite length_imap).
    rewrite length_imap, lookup_drop. do 2 f_equal. lia.
Qed.

Lemma cell_diffed_points rows pts i j :
  cell (diffed_points rows pts) i j
  = (fun c => delta c (default c (cell rows i j))) <$> cell pts i j.
Proof.
  unfold cell at 1 3. destruct (pts !! i) as [prow|] eqn:Hi.
  - rewrite (lookup_diffed_points _ _ _ _ _ _ _ Hi). simpl.
    unfold diffed_row. rewrite list_lookup_imap.
    destruct (prow !! j); [|done]. simpl. unfold previous. by rewrite row_at_lookup.
  - unfold diffed_points. by rewrite list_lookup_imap, Hi.
Qed.

Lemma has_new_iff rows pts :
  has_new rows pts (length pts) = true
  <-> exists i j c, cell pts i j = Some c /\ cell rows i j = None.
Proof.
  unfold has_new. rewrite take_ge by (by rewrite length_imap).
  rewrite existsb_exists. split.
  - intros (b & Hin & Hb). unfold id in Hb. subst b.
    apply list_elem_of_In, list_elem_of_lookup in Hin. destruct Hin as [i Hi].
    rewrite list_lookup_imap in Hi.
    destruct (pts !! i) as [prow|] eqn:Hp; [|done]. simpl in Hi.
    inversion Hi as [Hlt]. apply Nat.ltb_lt in Hlt.
    destruct (lookup_lt_is_Some_2 prow _ Hlt) as [c Hc].
    exists i, (length (row_at rows i)), c. split.
    + unfold cell. by rewrite Hp.
    + rewrite <- row_at_lookup. by apply lookup_ge_None_2.
  - intros (i & j & c & Hc & Hnone). exists true. split; [|done].
    apply list_elem_of_In, list_elem_of_lookup. exists i.
    unfold cell in Hc. rewrite list_lookup_imap.
    destruct (pts !! i) as [prow|]; [|done]. simpl in *. f_equal.
    apply Nat.ltb_lt. rewrite <- row_at_lookup in Hnone.
    apply lookup_ge_None_1 in Hnone. apply lookup_lt_Some in Hc. lia.
Qed.

Lemma compatible_cell rows pts i j c old :
  compatible rows pts = true ->
  cell pts i j = Some c -> cell rows i j = Some old ->
  assertable c old = true.
Proof.
  intros Hok Hc Hold. unfold compatible in Hok. unfold cell in Hc.
  destruct (pts !! i) as [prow|] eqn:Hi; [|done]. simpl in Hc.
  pose proof (proj1 (forallb_imap_true _ _) Hok i prow Hi) as Hrow.
  unfold row_compatible in Hrow.
  pose proof (proj1 (forallb_imap_true _ _) Hrow j c Hc) as Hcell.
  unfold previous in Hcell. by rewrite row_at_lookup, Hold in Hcell.
Qed.

Lemma cached_diffed_world w p serie :
  cached (diffed_world w p serie) (Name serie)
  = merged_rows (cached w (Name serie)) (Points serie).
Proof. unfold diffed_world. apply cached_insert. Qed.

Lemma cached_diffed_world_ne w p serie name :
  name <> Name serie -> cached (diffed_world w p serie) name = cached w name.
Proof.
  intros Hne. unfold diffed_world, cached. cbn [last_series].
  by rewrite lookup_insert_ne.
Qed.

End cells.

(** ** float64 is exact on integers below 2^53 *)

Local Open Scope Z_scope.

Section float64_exact.

Lemma digits2_pos_bounds m :
  2 ^ (Zpos (digits2_pos m) - 1) <= Zpos m < 2 ^ Zpos (digits2_pos m).
Proof.
  induction m as [m IH|m IH|]; simpl digits2_pos.
  - rewrite Pos2Z.inj_succ, Z.pow_succ_r by lia.
    replace (Z.succ (Zpos (digits2_pos m)) - 1) with (Z.succ (Zpos (digits2_pos m) - 1)) by lia.
    rewrite Z.pow_succ_r by lia. lia.
  - rewrite Pos2Z.inj_succ, Z.pow_succ_r by lia.
    replace (Z.succ (Zpos (digits2_pos m)) - 1) with (Z.succ (Zpos (digits2_pos m) - 1)) by lia.
    rewrite Z.pow_succ_r by lia. lia.
  - simpl. lia.
Qed.

Lemma digits2_pos_iter_xO m d :
  digits2_pos (Pos.iter xO m d) = (digits2_pos m + d)%positive.
Proof.
  induction d as [|d IH] using Pos.peano_ind.
  - simpl. lia.
  - rewrite Pos.iter_succ. simpl. rewrite IH. lia.
Qed.

Lemma Zpos_iter_xO m d : Zpos (Pos.iter xO m d) = Zpos m * 2 ^ Zpos d.
Proof.
  induction d as [|d IH] using Pos.peano_ind.
  - simpl. lia.
  - rewrite Pos.iter_succ, Pos2Z.inj_succ, Z.pow_succ_r by lia.
    rewrite Pos2Z.inj_xO, IH. lia.
Qed.

(** A mantissa of 53 bits with an exponent in range is left as it is. *)
Lemma binary_round_aux_canonical s m e :
  digits2_pos m = 53%positive -> -1074 <= e <= 971 ->
  binary_round_aux F64.prec F64.emax s (Zpos m) e loc_Exact = S754_finite s m e.
Proof.
  intros Hd He. unfold binary_round_aux, shr_fexp, fexp, emin, F64.prec, F64.emax.
  simpl Zdigits2. rewrite Hd.
  replace (Z.max (53 + e - 53) (3 - 1024 - 53) - e) with 0 by lia.
  simpl. rewrite Hd.
  replace (Z.max (53 + e - 53) (3 - 1024 - 53) - e) with 0 by lia.
  simpl. destruct (Z.leb_spec e (1024 - 53)); [done|lia].
Qed.

Lemma binary_round_small s m :
  Zpos m < 2 ^ 53 ->
  exists mz ez, binary_round F64.prec F64.emax s m 0 = S754_finite s mz ez
    /\ digits2_pos mz = 53%positive /\ -52 <= ez <= 0
    /\ Zpos mz = Zpos m * 2 ^ (- ez).
Proof.
  intros Hm. pose proof (digits2_pos_bounds m) as [Hlo Hhi].
  assert (Hn : Zpos (digits2_pos m) <= 53).
  { destruct (Z.le_gt_cases (Zpos (digits2_pos m)) 53) as [|Hgt]; [done|].
    assert (2 ^ 53 <= 2 ^ (Zpos (digits2_pos m) - 1)) by (apply Z.pow_le_mono_r; lia).
    lia. }
  unfold binary_round, shl_align, fexp, emin, F64.prec, F64.emax.
  replace (Z.max (Zpos (digits2_pos m) + 0 - 53) (3 - 1024 - 53) - 0)
    with (Zpos (digits2_pos m) - 53) by lia.
  replace (Z.max (Zpos (digits2_pos m) + 0 - 53) (3 - 1024 - 53))
    with (Zpos (digits2_pos m) - 53) by lia.
  destruct (Zpos (digits2_pos m) - 53) as [|d|d] eqn:Hd; [|lia|].
  - exists m, 0. split; [|split; [|split]]; try lia.
    apply (binary_round_aux_canonical s m 0); lia.
  - exists (Pos.iter xO m d), (Zneg d). split; [|split; [|split]].
    + apply binary_round_aux_canonical; [|lia].
      rewrite digits2_pos_iter_xO. lia.
    + rewrite digits2_pos_iter_xO. lia.
    + lia.
    + rewrite Zpos_iter_xO. done.
Qed.

Lemma mul_one_canonical s m e :
  digits2_pos m = 53%positive -> -1074 <= e <= 971 ->
  F64.mul (S754_finite s m e) F64.one = S754_finite s m e.
Proof.
  intros Hd He. unfold F64.mul, F64.one, F64.of_Z.
  change (binary_normalize F64.prec F64.emax 1 0 false)
    with (S754_finite false 4503599627370496 (-52)).
  unfold SFmul. rewrite xorb_false_r, Pos.mul_comm.
  replace (4503599627370496 * m)%positive with (Pos.iter xO m 52) by reflexivity.
  assert (Hshr : SpecFloat.iter_pos shr_1 52 (shr_record_of_loc (Zpos (Pos.iter xO m 52)) loc_Exact)
                 = Build_shr_record (Zpos m) false false) by reflexivity.
  unfold binary_round_aux, shr_fexp, fexp, emin, F64.prec, F64.emax.
  unfold Zdigits2 at 1. rewrite digits2_pos_iter_xO, Hd.
  replace (Z.max (Zpos (53 + 52) + (e + -52) - 53) (3 - 1024 - 53) - (e + -52)) with 52 by lia.
  unfold shr at 1. rewrite !Hshr.
  cbn [shr_m loc_of_shr_record round_nearest_even Zdigits2]. rewrite Hd.
  replace (Z.max (53 + (e + -52 + 52) - 53) (3 - 1024 - 53) - (e + -52 + 52)) with 0 by lia.
  cbn [shr shr_m shr_record_of_loc].
  replace (e + -52 + 52) with e by lia.
  destruct (Z.leb_spec e (1024 - 53)); [done|lia].
Qed.

Lemma trunc_mul_one (d : Z) :
  - 2 ^ 53 < d < 2 ^ 53 ->
  F64.trunc (F64.mul (F64.of_Z d) F64.one) = Some d.
Proof.
  intros Hd. destruct d as [|m|m]; [done| |].
  - unfold F64.of_Z, binary_normalize.
    destruct (binary_round_small false m) as (mz & ez & -> & Hdig & He & Hmz); [lia|].
    rewrite mul_one_canonical; [|done|lia].
    unfold F64.trunc. f_equal.
    destruct ez as [|ez|ez]; [rewrite Z.shiftl_0_r, Hmz; change (2 ^ (- 0)) with 1; lia|lia|].
    rewrite Hmz. simpl Z.opp. rewrite Z.shiftr_div_pow2 by lia.
    by rewrite Z.div_mul by lia.
  - unfold F64.of_Z, binary_normalize.
    destruct (binary_round_small true m) as (mz & ez & -> & Hdig & He & Hmz); [lia|].
    rewrite mul_one_canonical; [|done|lia].
    unfold F64.trunc. f_equal.
    destruct ez as [|ez|ez]; [rewrite Z.shiftl_0_r, Hmz; change (2 ^ (- 0)) with 1; lia|lia|].
    rewrite Hmz. simpl Z.opp. rewrite Z.shiftr_div_pow2 by lia.
    rewrite Z.div_mul by lia. lia.
Qed.

End float64_exact.

Local Close Scope Z_scope.

(** ** What a call of [DiffFromLast] guarantees *)

Section normalizer.
Variable goarch : arch.
Variable conv_unrepresentable : intkind -> spec_float -> Z.
Variable consistencyFactor : F64.t.

Local Abbreviation to_int := (to_int goarch conv_unrepresentable).
Local Abbreviation scaled_diff := (scaled_diff goarch conv_unrepresentable consistencyFactor).
Local Abbreviation delta := (delta goarch conv_unrepresentable consistencyFactor).
Local Abbreviation diffed_points := (diffed_points goarch conv_unrepresentable consistencyFactor).
Local Abbreviation diffed_world := (diffed_world goarch conv_unrepresentable consistencyFactor).
Local Abbreviation DiffFromLast := (DiffFromLast goarch conv_unrepresentable consistencyFactor).

Lemma points_at_diffed_world w p serie :
  heap w !! p = Some serie ->
  points_at (diffed_world w p serie) p
  = diffed_points (cached w (Name serie)) (Points serie).
Proof.
  intros Hp. unfold points_at, diffed_world. cbn [heap].
  rewrite list_lookup_insert_eq by (by eapply lookup_lt_Some). done.
Qed.

(** The cells of the series after a call that returns. *)
Lemma DiffFromLast_cell w p r w' serie i j :
  DiffFromLast p w = Returns (r, w') ->
  heap w !! p = Some serie ->
  cell (points_at w' p) i j
  = (fun c => delta c (default c (cell (cached w (Name serie)) i j)))
      <$> cell (Points serie) i j.
Proof.
  intros H Hp. destruct (DiffFromLast_inv _ _ _ _ _ _ _ H) as (s & Hs & _ & _ & ->).
  rewrite Hp in Hs. inversion Hs; subst s.
  by rewrite points_at_diffed_world, cell_diffed_points.
Qed.

(** The cells of the cache after a call that returns. *)
Lemma DiffFromLast_cached w p r w' serie i j :
  DiffFromLast p w = Returns (r, w') ->
  heap w !! p = Some serie ->
  cell (cached w' (Name serie)) i j
  = match cell (Points serie) i j with
    | Some v => Some v
    | None => cell (cached w (Name serie)) i j
    end.
Proof.
  intros H Hp. destruct (DiffFromLast_inv _ _ _ _ _ _ _ H) as (s & Hs & _ & _ & ->).
  rewrite Hp in Hs. inversion Hs; subst s.
  by rewrite cached_diffed_world, cell_merged_rows.
Qed.

(** The value returned: nil exactly when some cell is new. *)
Lemma DiffFromLast_value w p r w' serie :
  DiffFromLast p w = Returns (r, w') ->
  heap w !! p = Some serie ->
  (r = None /\ exists i j c, cell (Points serie) i j = Some c
                             /\ cell (cached w (Name serie)) i j = None)
  \/ (r = Some p /\ forall i j c, cell (Points serie) i j = Some c ->
                                  is_Some (cell (cached w (Name serie)) i j)).
Proof.
  intros H Hp. destruct (DiffFromLast_inv _ _ _ _ _ _ _ H) as (s & Hs & _ & -> & _).
  rewrite Hp in Hs. inversion Hs; subst s.
  destruct (has_new _ _ _) eqn:Hnew.
  - left. split; [done|]. by apply has_new_iff.
  - right. split; [done|]. intros i j c Hc.
    destruct (cell (cached w (Name serie)) i j) eqn:Hold; [by eexists|].
    assert (has_new (cached w (Name serie)) (Points serie) (length (Points serie)) = true)
      as Hcontra by (apply has_new_iff; eauto).
    congruence.
Qed.

Lemma wrap_in_range k z : in_range goarch k (wrap goarch k z) = true.
Proof.
  unfold in_range, wrap, min_int, max_int.
  apply andb_true_iff. rewrite !Z.leb_le.
  assert (0 <= (z - (if is_signed k then - 2 ^ (bits goarch k - 1) else 0))
               mod 2 ^ bits goarch k < 2 ^ bits goarch k)%Z as Hm
    by (apply Z.mod_pos_bound; destruct goarch, k; done).
  destruct goarch, k; simpl in *; lia.
Qed.

Lemma wrap_id k z : in_range goarch k z = true -> wrap goarch k z = z.
Proof.
  unfold in_range, wrap, min_int, max_int.
  intros H. apply andb_true_iff in H. rewrite !Z.leb_le in H.
  rewrite Z.mod_small; [lia|]. destruct goarch, k; simpl in *; lia.
Qed.

Lemma in_range_0 k : in_range goarch k 0 = true.
Proof. by destruct goarch, k. Qed.

Lemma to_int_in_range k x : in_range goarch k (to_int k x) = true.
Proof.
  unfold to_int. destruct (F64.trunc x) as [z|]; [|apply wrap_in_range].
  destruct (in_range goarch k z) eqn:Hz; [done|apply wrap_in_range].
Qed.

Lemma sub_same k x : sub goarch k x x = 0%Z.
Proof. unfold sub. rewrite Z.sub_diag. apply wrap_id, in_range_0. Qed.

Lemma to_int_zero_times_finite k x :
  F64.is_finite x = true -> to_int k (F64.mul (F64.of_Z 0) x) = 0%Z.
Proof.
  destruct x as [s|s| |s m e]; try done; intros _;
    unfold to_int; simpl; by rewrite in_range_0.
Qed.

(** The previous value of an integer cell is an integer of its type. *)
Lemma previous_of_int w p r w' serie i j k x :
  DiffFromLast p w = Returns (r, w') ->
  heap w !! p = Some serie ->
  cell (Points serie) i j = Some (VInt k x) ->
  exists y, default (VInt k x) (cell (cached w (Name serie)) i j) = VInt k y.
Proof.
  intros H Hp Hc. destruct (DiffFromLast_inv _ _ _ _ _ _ _ H) as (s & Hs & Hok & _ & _).
  rewrite Hp in Hs. inversion Hs; subst s.
  destruct (cell (cached w (Name serie)) i j) as [old|] eqn:Hold; simpl; [|by eexists].
  pose proof (compatible_cell _ _ _ _ _ _ Hok Hc Hold) as Ha.
  destruct old as [k' y| | |]; try done. simpl in Ha.
  apply bool_decide_eq_true in Ha. subst k'. by eexists.
Qed.

Lemma scaled_diff_one k x y :
  consistencyFactor = F64.one ->
  (- 2 ^ 53 < sub goarch k x y < 2 ^ 53)%Z ->
  scaled_diff k x y = sub goarch k x y.
Proof.
  intros -> Hd. unfold scaled_diff, to_int.
  rewrite trunc_mul_one by done. unfold sub. by rewrite wrap_in_range.
Qed.

Lemma sub_unsigned_decrease k x y :
  is_signed k = false -> (0 <= x < y)%Z -> (y <= max_int goarch k)%Z ->
  sub goarch k x y = (x - y + 2 ^ bits goarch k)%Z.
Proof.
  intros Hk Hxy Hy. unfold sub, wrap, min_int, max_int in *. rewrite Hk in *.
  rewrite Z.sub_0_r, Z.add_0_r.
  rewrite <- (Z_mod_plus_full (x - y) 1 (2 ^ bits goarch k)).
  rewrite Z.mod_small; lia.
Qed.

Lemma merged_rows_row rows pts i crow :
  rows !! i = Some crow ->
  exists crow', merged_rows rows pts !! i = Some crow' /\ length crow <= length crow'.
Proof.
  intros Hrow. destruct (pts !! i) as [prow|] eqn:Hi.
  - exists (merged_row (row_at rows i) prow). split; [by apply lookup_merged_rows|].
    unfold merged_row, row_at. rewrite Hrow. simpl.
    rewrite length_app, length_drop. lia.
  - exists crow. split; [|done]. apply lookup_ge_None_1 in Hi.
    unfold merged_rows. rewrite lookup_app_r by (by rewrite length_imap).
    rewrite length_imap, lookup_drop, <- Hrow. f_equal. lia.
Qed.

(** C7: after a call of [DiffFromLast] that returns, the cache of the
    series' name holds, at every row and column of the series, the raw
    value the series had there when the call began; the branch taken
    (new baseline or difference) does not matter. *)
Theorem cache_holds_raw_input w p r w' serie i j c :
  DiffFromLast p w = Returns (r, w') ->
  heap w !! p = Some serie ->
  cell (Points serie) i j = Some c ->
  cell (cached w' (Name serie)) i j = Some c.
Proof.
  intros H Hp Hc. by rewrite (DiffFromLast_cached _ _ _ _ _ _ _ H Hp), Hc.
Qed.

(** C2, as amended: a cell with no previous value is diffed against
    itself. The call returns nil, a non-integer cell is left as it is, and
    an integer cell of type [T] is overwritten with
    [T(float64(0) * consistencyFactor)], which is 0 for every finite
    factor: the raw value does not stay in the table. *)
Theorem new_cell_is_diffed_against_itself w p r w' serie i j c :
  DiffFromLast p w = Returns (r, w') ->
  heap w !! p = Some serie ->
  cell (Points serie) i j = Some c ->
  cell (cached w (Name serie)) i j = None ->
  r = None
  /\ cell (points_at w' p) i j
     = Some (match c with
             | VInt k _ => VInt k (to_int k (F64.mul (F64.of_Z 0) consistencyFactor))
             | _ => c
             end)
  /\ (F64.is_finite consistencyFactor = true ->
      cell (points_at w' p) i j
      = Some (match c with VInt k _ => VInt k 0 | _ => c end)).
Proof.
  intros H Hp Hc Hnew.
  assert (Hcell : cell (points_at w' p) i j
     = Some (match c with
             | VInt k _ => VInt k (to_int k (F64.mul (F64.of_Z 0) consistencyFactor))
             | _ => c
             end)).
  { rewrite (DiffFromLast_cell _ _ _ _ _ _ _ H Hp), Hc, Hnew. simpl. f_equal.
    destruct c as [k x| | |]; try done. simpl.
    unfold scaled_diff. by rewrite sub_same. }
  split; [|split; [done|]].
  - destruct (DiffFromLast_value _ _ _ _ _ H Hp) as [[-> _]|[_ Hall]]; [done|].
    destruct (Hall i j c Hc) as [v Hv]. congruence.
  - intros Hfin. rewrite Hcell. f_equal. destruct c; try done.
    by rewrite to_int_zero_times_finite.
Qed.

(** C5, as amended: when the series has a cell with no cached
    predecessor (as every cell of a series whose name was never seen is),
    a call that returns gives nil, and the cache then holds the raw value
    of every such cell. *)
Theorem new_cell_gives_nil_and_baseline w p r w' serie i j c :
  DiffFromLast p w = Returns (r, w') ->
  heap w !! p = Some serie ->
  cell (Points serie) i j = Some c ->
  last_series w !! Name serie = None \/ cell (cached w (Name serie)) i j = None ->
  r = None
  /\ forall i' j' c',
       cell (Points serie) i' j' = Some c' ->
       cell (cached w (Name serie)) i' j' = None ->
       cell (cached w' (Name serie)) i' j' = Some c'.
Proof.
  intros H Hp Hc Hnew.
  assert (Hnone : cell (cached w (Name serie)) i j = None).
  { destruct Hnew as [Hkey|Hnone]; [|done]. unfold cached. by rewrite Hkey. }
  split.
  - destruct (DiffFromLast_value _ _ _ _ _ H Hp) as [[-> _]|[_ Hall]]; [done|].
    destruct (Hall i j c Hc) as [v Hv]. congruence.
  - intros i' j' c' Hc' _. by rewrite (DiffFromLast_cached _ _ _ _ _ _ _ H Hp), Hc'.
Qed.



(** C9: the cache only grows. After a call that returns, every name,
    row and cell the cache had is still there (rows only get longer); a
    cached cell outside the shape of the series keeps its stale value; a
    series all of whose cells have a predecessor gives a complete result,
    whatever else the cache holds; and when a later series of the same
    name has an integer cell where this one had none, that cell is diffed
    against the stale value. *)
Theorem cache_only_grows w p r w' serie :
  DiffFromLast p w = Returns (r, w') ->
  heap w !! p = Some serie ->
  (forall name, is_Some (last_series w !! name) -> is_Some (last_series w' !! name))
  /\ (forall name i crow, cached w name !! i = Some crow ->
        exists crow', cached w' name !! i = Some crow' /\ length crow <= length crow')
  /\ (forall i j v, cell (cached w (Name serie)) i j = Some v ->
        cell (Points serie) i j = None ->
        cell (cached w' (Name serie)) i j = Some v)
  /\ ((forall i j c, cell (Points serie) i j = Some c ->
         is_Some (cell (cached w (Name serie)) i j)) ->
      r = Some p)
  /\ (forall p2 r2 w2 serie2 i j k x y,
        DiffFromLast p2 w' = Returns (r2, w2) ->
        heap w' !! p2 = Some serie2 ->
        Name serie2 = Name serie ->
        cell (cached w (Name serie)) i j = Some (VInt k y) ->
        cell (Points serie) i j = None ->
        cell (Points serie2) i j = Some (VInt k x) ->
        cell (points_at w2 p2) i j = Some (VInt k (scaled_diff k x y))).
Proof.
  intros H Hp.
  assert (Hstale : forall i j v, cell (cached w (Name serie)) i j = Some v ->
            cell (Points serie) i j = None ->
            cell (cached w' (Name serie)) i j = Some v).
  { intros i j v Hv Hnone. by rewrite (DiffFromLast_cached _ _ _ _ _ _ _ H Hp), Hnone. }
  destruct (DiffFromLast_inv _ _ _ _ _ _ _ H) as (s & Hs & Hok & Hr & Hw).
  rewrite Hp in Hs. inversion Hs; subst s. clear Hs.
  split; [|split; [|split; [done|split]]].
  - intros name Hname. subst w'. unfold diffed_world. cbn [last_series].
    destruct (decide (Name serie = name)) as [<-|Hne].
    + rewrite lookup_insert_eq. by eexists.
    + by rewrite lookup_insert_ne.
  - intros name i crow Hrow. subst w'.
    destruct (decide (name = Name serie)) as [->|Hne].
    + rewrite cached_diffed_world. by apply merged_rows_row.
    + rewrite cached_diffed_world_ne by done. by exists crow.
  - intros Hall. destruct (DiffFromLast_value _ _ _ _ _ H Hp)
      as [[_ (i & j & c & Hc & Hnone)]|[-> _]]; [|done].
    destruct (Hall i j c Hc) as [v Hv]. congruence.
  - intros p2 r2 w2 serie2 i j k x y H2 Hp2 Hname Hy Hnone Hx.
    rewrite (DiffFromLast_cell _ _ _ _ _ _ _ H2 Hp2), Hx, Hname. simpl.
    by rewrite (Hstale i j _ Hy Hnone).
Qed.


End normalizer.

Lemma cache_holds_raw_input_witness :
  second_call = Returns (value_after second_call None, world_after second_call second_lap)
  /\ cell (cached (world_after second_call second_lap) "cpu") 0 1
     = Some (VInt Uint64 150).
Proof.
  assert (H : second_call
              = Returns (value_after second_call None, world_after second_call second_lap))
    by (vm_compute; reflexivity).
  split; [exact H|].
  exact (cache_holds_raw_input GOARCH64 conv_indefinite F64.one
           second_lap 0 _ _ (cpu_series 150) 0 1 _ H eq_refl eq_refl).
Defined.


(** ** The theorems at concrete calls *)

Lemma first_call_returns :
  first_call = Returns (None, world_after first_call first_lap).
Proof. vm_compute. reflexivity. Qed.

Lemma second_call_returns :
  second_call = Returns (Some 0, world_after second_call second_lap).
Proof. vm_compute. reflexivity. Qed.

Lemma one_disk_call_returns :
  one_disk_call = Returns (Some 0, world_after one_disk_call one_disk_lap).
Proof. vm_compute. reflexivity. Qed.

Lemma two_disks_call_returns :
  two_disks_call
  = Returns (Some 1, world_after two_disks_call (world_after one_disk_call one_disk_lap)).
Proof. vm_compute. reflexivity. Qed.

Lemma reset_call_returns :
  reset_call = Returns (Some 0, world_after reset_call reset_lap).
Proof. vm_compute. reflexivity. Qed.

(** C2 fails as stated: at the first lap the cell [total = 100] has no
    previous value, and after the call the series holds 0 there, not the
    raw 100 (and nil is returned). *)
Lemma first_observation_not_passed_through :
  cell (points_at first_lap 0) 0 1 = Some (VInt Uint64 100)
  /\ cell (cached first_lap "cpu") 0 1 = None
  /\ first_call = Returns (None, world_after first_call first_lap)
  /\ cell (points_at (world_after first_call first_lap) 0) 0 1 = Some (VInt Uint64 0)
  /\ cell (points_at (world_after first_call first_lap) 0) 0 1
     <> cell (points_at first_lap 0) 0 1.
Proof. repeat split; try (vm_compute; reflexivity). vm_compute. discriminate. Qed.

Lemma new_cell_is_diffed_against_itself_witness :
  first_call = Returns (None, world_after first_call first_lap)
  /\ heap first_lap !! 0 = Some (cpu_series 100)
  /\ cell (Points (cpu_series 100)) 0 1 = Some (VInt Uint64 100)
  /\ cell (cached first_lap (Name (cpu_series 100))) 0 1 = None
  /\ cell (points_at (world_after first_call first_lap) 0) 0 1 = Some (VInt Uint64 0).
Proof.
  pose proof first_call_returns as H.
  split; [exact H|]. split; [reflexivity|]. split; [reflexivity|]. split; [reflexivity|].
  exact (proj2 (proj2 (new_cell_is_diffed_against_itself GOARCH64 conv_indefinite F64.one
           first_lap 0 _ _ (cpu_series 100) 0 1 _ H eq_refl eq_refl eq_refl)) eq_refl).
Defined.

(** C5 fails as stated: the name "cpus" was never seen, yet the call on
    a series without rows returns the series, not nil. *)
Lemma never_seen_name_without_cells_is_complete :
  last_series no_rows !! "cpus" = None
  /\ no_rows_call = Returns (Some 0, world_after no_rows_call no_rows).
Proof. split; vm_compute; reflexivity. Qed.

Lemma new_cell_gives_nil_and_baseline_witness :
  first_call = Returns (None, world_after first_call first_lap)
  /\ heap first_lap !! 0 = Some (cpu_series 100)
  /\ cell (Points (cpu_series 100)) 0 1 = Some (VInt Uint64 100)
  /\ last_series first_lap !! Name (cpu_series 100) = None
  /\ value_after first_call (Some 0) = None
  /\ cell (cached (world_after first_call first_lap) "cpu") 0 1 = Some (VInt Uint64 100).
Proof.
  pose proof first_call_returns as H.
  split; [exact H|]. split; [reflexivity|]. split; [reflexivity|]. split; [reflexivity|].
  destruct (new_cell_gives_nil_and_baseline GOARCH64 conv_indefinite F64.one
              first_lap 0 _ _ (cpu_series 100) 0 1 _ H eq_refl eq_refl (or_introl eq_refl))
    as [_ Hbase].
  split; [reflexivity|]. exact (Hbase 0 1 _ eq_refl eq_refl).
Defined.


Lemma cache_only_grows_witness :
  one_disk_call = Returns (Some 0, world_after one_disk_call one_disk_lap)
  /\ heap one_disk_lap !! 0 = Some (disks_series [[VString "sda"; VInt Int 15]])
  /\ cell (cached (world_after one_disk_call one_disk_lap) "disks") 1 1 = Some (VInt Int 20)
  /\ cell (points_at (world_after two_disks_call (world_after one_disk_call one_disk_lap)) 1) 1 1
     = Some (VInt Int 30).
Proof.
  pose proof one_disk_call_returns as H.
  split; [exact H|]. split; [reflexivity|].
  destruct (cache_only_grows GOARCH64 conv_indefinite F64.one
              one_disk_lap 0 _ _ (disks_series [[VString "sda"; VInt Int 15]]) H eq_refl)
    as (_ & _ & Hstale & _ & Hlater).
  split; [exact (Hstale 1 1 _ eq_refl eq_refl)|].
  exact (Hlater 1 _ _
           (disks_series [[VString "sda"; VInt Int 18]; [VString "sdb"; VInt Int 50]])
           1 1 Int 50%Z 20%Z two_disks_call_returns eq_refl eq_refl eq_refl eq_refl eq_refl).
Defined.



(** ** The gathering functions that do not diff *)

Section gathering.
Variable strings_Fields : string -> list string.

Local Abbreviation mounts_scan := (mounts_scan strings_Fields).
Local Abbreviation mounts := (mounts strings_Fields).

#[local] Arguments stringInSlice : simpl never.
#[local] Arguments String.eqb : simpl never.

Lemma append_point_fresh w name cols rows row :
  append_point (length (heap w)) row (set_heap w (heap w ++ [mkSeries name cols rows]))
  = Returns (set_heap w (heap w ++ [mkSeries name cols (rows ++ [row])])).
Proof.
  unfold append_point, set_heap. cbn [heap last_series chan].
  rewrite lookup_app_r, Nat.sub_diag by done. cbn.
  rewrite insert_app_r_alt, Nat.sub_diag by done. done.
Qed.

Lemma mem_sends_as_built prefix o w :
  mem prefix o w
  = Returns
      (match sigar_Mem o with
       | None =>
           sent_nil (prefix +:+ "mem")
             ["free"; "used"; "actualfree"; "actualused"; "total"] w
       | Some m =>
           sent_as_built (prefix +:+ "mem")
             ["free"; "used"; "actualfree"; "actualused"; "total"]
             [[VInt Uint64 (mem_Free m); VInt Uint64 (mem_Used m);
               VInt Uint64 (mem_ActualFree m); VInt Uint64 (mem_ActualUsed m);
               VInt Uint64 (mem_Total m)]] w
       end).
Proof.
  unfold mem, alloc. destruct (sigar_Mem o) as [m|]; [|done].
  by rewrite append_point_fresh.
Qed.

Lemma swap_sends_as_built prefix o w :
  swap prefix o w
  = Returns
      (match sigar_Swap o with
       | None => sent_nil (prefix +:+ "swap") ["free"; "used"; "total"] w
       | Some sw =>
           sent_as_built (prefix +:+ "swap") ["free"; "used"; "total"]
             [[VInt Uint64 (swap_Free sw); VInt Uint64 (swap_Used sw);
               VInt Uint64 (swap_Total sw)]] w
       end).
Proof.
  unfold swap, alloc. destruct (sigar_Swap o) as [sw|]; [|done].
  by rewrite append_point_fresh.
Qed.

Lemma uptime_sends_as_built prefix o w :
  uptime prefix o w
  = Returns
      (match sigar_Uptime o with
       | None => sent_nil (prefix +:+ "uptime") ["length"] w
       | Some len =>
           sent_as_built (prefix +:+ "uptime") ["length"] [[VFloat64 len]] w
       end).
Proof.
  unfold uptime, alloc. destruct (sigar_Uptime o) as [len|]; [|done].
  by rewrite append_point_fresh.
Qed.

Lemma load_sends_as_built prefix o w :
  load prefix o w
  = Returns
      (match sigar_LoadAverage o with
       | None => sent_nil (prefix +:+ "load") ["one"; "five"; "fifteen"] w
       | Some l =>
           sent_as_built (prefix +:+ "load") ["one"; "five"; "fifteen"]
             [[VFloat64 (load_One l); VFloat64 (load_Five l);
               VFloat64 (load_Fifteen l)]] w
       end).
Proof.
  unfold load, alloc. destruct (sigar_LoadAverage o) as [l|]; [|done].
  by rewrite append_point_fresh.
Qed.

(** The loop of [mounts] only appends rows to its own series. *)
Lemma mounts_scan_appends o lines w name cols rows sc :
  Forall (mount_row o) rows ->
  mounts_scan o (length (heap w)) lines
    (set_heap w (heap w ++ [mkSeries name cols rows])) = Returns sc ->
  exists rows',
    Forall (mount_row o) rows'
    /\ (sc = Scanned (set_heap w (heap w ++ [mkSeries name cols rows']))
        \/ sc = Returned (Some Error) (set_heap w (heap w ++ [mkSeries name cols rows']))).
Proof.
  revert rows. induction lines as [|line lines IH]; intros rows Hrows; simpl.
  - intros [= <-]. exists rows. auto.
  - destruct (strings_Fields line !! 2) as [t2|]; cbn; [|done].
    destruct (stringInSlice t2 sysfs); cbn; [by apply IH|].
    destruct (strings_Fields line !! 0) as [t0|]; cbn; [|done].
    destruct (String.eqb t0 "none"); cbn; [by apply IH|].
    destruct (strings_Fields line !! 1) as [t1|]; cbn; [|done].
    destruct (syscall_Statfs o t1) as [fs|] eqn:Hfs.
    + rewrite append_point_fresh. cbn. apply IH.
      apply Forall_app. split; [done|]. apply Forall_singleton.
      by exists t0, t1, fs.
    + intros [= <-]. exists rows. auto.
Qed.

End gathering.


(** ** The collecting loop *)

Section collecting.
Variable strings_ToLower : string -> string.

Local Abbreviation emit := (emit strings_ToLower).
Local Abbreviation lap := (lap strings_ToLower).
Local Abbreviation laps := (laps strings_ToLower).

(** In one-shot mode [first] is set exactly when a nil is received. *)
Lemma collect_first fl n data first w data' first' w' :
  daemonFlag fl = false ->
  collect fl n data first w = Done (data', first', w') ->
  first' = first || bool_decide (None ∈ take n (chan w)).
Proof.
  intros Hd. revert data first w.
  induction n as [|n IH]; intros data first w; simpl.
  - intros [= _ <- _]. by rewrite orb_false_r.
  - destruct (chan w) as [|res rest] eqn:Hch; [done|].
    destruct res as [p|].
    + intros H. rewrite (IH _ _ _ H). cbn [chan]. f_equal.
      apply bool_decide_ext. rewrite firstn_cons, elem_of_cons.
      split; [by right|]. by intros [?|?].
    + rewrite Hd. intros H. rewrite (IH _ _ _ H). cbn [chan].
      rewrite firstn_cons.
      rewrite (bool_decide_eq_true_2 (None ∈ None :: take n rest)) by apply list_elem_of_here.
      by rewrite orb_true_r.
Qed.

Lemma emit_incomplete fl o data w :
  emit fl o data true w = Returns ([Sleep (daemonIntervalFlag fl)], w).
Proof. unfold emit. cbn. by rewrite orb_true_r. Qed.

Lemma emit_complete_one_shot fl o data w evs w' :
  daemonFlag fl = false ->
  emit fl o data false w = Returns (evs, w') ->
  forall d, Sleep d ∉ evs.
Proof.
  intros Hd. unfold emit. rewrite Hd. cbn [negb orb andb].
  destruct (if fqdnFlag fl then add_fqdn o data w else Returns w) as [w1|]; [|done].
  cbn. rewrite app_nil_r. intros [= <- _] d Hin.
  apply elem_of_app in Hin. destruct Hin as [Hin|Hin].
  - repeat (case_match; try (by apply not_elem_of_nil in Hin));
      apply list_elem_of_singleton in Hin; discriminate.
  - repeat (case_match; try (by apply not_elem_of_nil in Hin));
      apply list_elem_of_singleton in Hin; discriminate.
Qed.


End collecting.



(** ** Gathering functions that return without sending *)

Section silent_returns.
Variable goarch : arch.
Variable conv_unrepresentable : intkind -> spec_float -> Z.
Variable consistencyFactor : F64.t.
Variable strings_Split : string -> string -> list string.
Variable strings_Trim : string -> string -> string.
Variable strings_Fields : string -> list string.
Variable strings_ToLower : string -> string.
Variable strconv_Atoi : string -> option Z.

Local Abbreviation network :=
  (network goarch conv_unrepresentable consistencyFactor
           strings_Split strings_Trim strings_Fields strconv_Atoi).
Local Abbreviation disks :=
  (disks goarch conv_unrepresentable consistencyFactor strings_Fields strconv_Atoi).
Local Abbreviation mounts := (mounts strings_Fields).
Local Abbreviation lap := (lap strings_ToLower).

(** A turn that starts one gathering function which returns without
    sending waits forever on the channel. *)
Lemma lap_blocked_by_silent_return fl (cl : GatherFunc) o w err w' :
  cl (prefixFlag fl) o w = Returns (err, w') ->
  chan w' = [] ->
  lap fl [cl] o w = Blocked.
Proof.
  intros Hcl Hch. unfold lap. simpl. rewrite Hcl. simpl. by rewrite Hch.
Qed.

(** C1 fails on the code: when [/proc/net/dev] cannot be opened,
    [network] returns its error without writing anything to the channel,
    and a turn of the loop that collects [network] alone then waits
    forever for the value that never comes. *)
Theorem network_open_failure_sends_nothing fl o w :
  proc_net_dev o = None ->
  chan w = [] ->
  network (prefixFlag fl) o w = Returns (Some Error, w)
  /\ lap fl [network] o w = Blocked.
Proof.
  intros Hopen Hch.
  assert (Hnet : network (prefixFlag fl) o w = Returns (Some Error, w))
    by (unfold network; by rewrite Hopen).
  split; [done|]. by apply (lap_blocked_by_silent_return _ _ _ _ _ _ Hnet).
Qed.

(** The same happens in [disks], and in [mounts] when the file cannot be
    opened or [syscall.Statfs] fails. *)
Lemma disks_open_failure_sends_nothing prefix o w :
  proc_diskstats o = None -> disks prefix o w = Returns (Some Error, w).
Proof. intros Hopen. unfold disks. by rewrite Hopen. Qed.

Lemma mounts_open_failure_sends_nothing prefix o w :
  proc_mounts o = None ->
  exists w', mounts prefix o w = Returns (Some Error, w') /\ chan w' = chan w.
Proof. intros Hopen. unfold mounts, alloc. rewrite Hopen. by eexists. Qed.

End silent_returns.

Lemma network_open_failure_sends_nothing_witness :
  proc_net_dev no_proc = None
  /\ chan empty_world = []
  /\ lap lower_of_empty one_shot
       [network GOARCH64 conv_indefinite F64.one
          (fun _ _ => []) (fun s _ => s) (fun _ => []) (fun _ => None)]
       no_proc empty_world
     = Blocked.
Proof.
  split; [reflexivity|]. split; [reflexivity|].
  exact (proj2 (network_open_failure_sends_nothing GOARCH64 conv_indefinite F64.one
                  (fun _ _ => []) (fun s _ => s) (fun _ => []) lower_of_empty
                  (fun _ => None) one_shot no_proc empty_world eq_refl eq_refl)).
Defined.

(** ** More on [DiffFromLast] *)

Section normalizer_more.
Variable goarch : arch.
Variable conv_unrepresentable : intkind -> spec_float -> Z.
Variable consistencyFactor : F64.t.

Local Abbreviation to_int := (to_int goarch conv_unrepresentable).
Local Abbreviation scaled_diff := (scaled_diff goarch conv_unrepresentable consistencyFactor).
Local Abbreviation delta := (delta goarch conv_unrepresentable consistencyFactor).
Local Abbreviation diffed_points := (diffed_points goarch conv_unrepresentable consistencyFactor).
Local Abbreviation diffed_row := (diffed_row goarch conv_unrepresentable consistencyFactor).
Local Abbreviation diffed_world := (diffed_world goarch conv_unrepresentable consistencyFactor).
Local Abbreviation DiffFromLast := (DiffFromLast goarch conv_unrepresentable consistencyFactor).

Lemma assertable_same c : assertable c c = true.
Proof. destruct c; try done. simpl. by apply bool_decide_eq_true. Qed.

Lemma assertable_false_iff c old :
  assertable c old = false
  <-> exists k x, c = VInt k x /\ forall y, old <> VInt k y.
Proof.
  split.
  - destruct c as [k x| | |]; try done. intros H. exists k, x. split; [done|].
    intros y ->. simpl in H. by rewrite bool_decide_eq_false in H.
  - intros (k & x & -> & Hold). destruct old as [k' y| | |]; try done. simpl.
    apply bool_decide_eq_false. intros ->. by apply (Hold y).
Qed.

Lemma incompatible_cell rows pts :
  compatible rows pts = false ->
  exists i j c old, cell pts i j = Some c /\ cell rows i j = Some old
                    /\ assertable c old = false.
Proof.
  intros H. unfold compatible in H.
  destruct (forallb_imap_false _ _ H) as (i & prow & Hi & Hrow & _).
  unfold row_compatible in Hrow.
  destruct (forallb_imap_false _ _ Hrow) as (j & c & Hj & Hbad & _).
  unfold previous in Hbad. rewrite row_at_lookup in Hbad.
  destruct (cell rows i j) as [old|] eqn:Hold; simpl in Hbad.
  - exists i, j, c, old. split; [|done]. unfold cell. by rewrite Hi.
  - by rewrite assertable_same in Hbad.
Qed.

(** X2: a call on a series that is there panics exactly when some integer
    cell of the series has a cached predecessor that is not an integer of
    the same type. *)
Theorem DiffFromLast_panics_iff_type_mismatch w p serie :
  heap w !! p = Some serie ->
  DiffFromLast p w = Panics
  <-> exists i j k x old,
        cell (Points serie) i j = Some (VInt k x)
        /\ cell (cached w (Name serie)) i j = Some old
        /\ forall y, old <> VInt k y.
Proof.
  intros Hp. split.
  - intros Hpanic.
    destruct (compatible (cached w (Name serie)) (Points serie)) eqn:Hok.
    + by rewrite (DiffFromLast_returns _ _ _ w p serie Hp Hok) in Hpanic.
    + destruct (incompatible_cell _ _ Hok) as (i & j & c & old & Hc & Hold & Hbad).
      apply assertable_false_iff in Hbad. destruct Hbad as (k & x & -> & Hne).
      by exists i, j, k, x, old.
  - intros (i & j & k & x & old & Hc & Hold & Hne).
    apply (DiffFromLast_panics _ _ _ w p serie Hp).
    destruct (compatible (cached w (Name serie)) (Points serie)) eqn:Hok; [|done].
    pose proof (compatible_cell _ _ _ _ _ _ Hok Hc Hold) as Ha.
    assert (assertable (VInt k x) old = false) as Hf
      by (apply assertable_false_iff; by exists k, x).
    congruence.
Qed.

(** X3: a call that returns leaves the cache of every other name, and the
    channel, as they were. *)
Theorem DiffFromLast_leaves_other_names w p r w' serie :
  DiffFromLast p w = Returns (r, w') ->
  heap w !! p = Some serie ->
  (forall name, name <> Name serie -> last_series w' !! name = last_series w !! name)
  /\ chan w' = chan w.
Proof.
  intros H Hp. destruct (DiffFromLast_inv _ _ _ _ _ _ _ H) as (s & Hs & _ & _ & ->).
  rewrite Hp in Hs. inversion Hs; subst s. split; [|done].
  intros name Hne. unfold diffed_world. cbn [last_series].
  by rewrite lookup_insert_ne.
Qed.

(** X4: a call that returns keeps the shape of the series: as many rows,
    each as long as before; so rows that had one value per column still
    have. *)
Theorem DiffFromLast_keeps_shape w p r w' serie :
  DiffFromLast p w = Returns (r, w') ->
  heap w !! p = Some serie ->
  length (points_at w' p) = length (Points serie)
  /\ (forall i row, Points serie !! i = Some row ->
        exists row', points_at w' p !! i = Some row' /\ length row' = length row)
  /\ (Forall (fun row => length row = length (Columns serie)) (Points serie) ->
      Forall (fun row => length row = length (Columns serie)) (points_at w' p)).
Proof.
  intros H Hp. destruct (DiffFromLast_inv _ _ _ _ _ _ _ H) as (s & Hs & _ & _ & ->).
  rewrite Hp in Hs. inversion Hs; subst s.
  rewrite points_at_diffed_world by done.
  assert (Hrows : forall i row, Points serie !! i = Some row ->
            exists row', diffed_points (cached w (Name serie)) (Points serie) !! i = Some row'
                         /\ length row' = length row).
  { intros i row Hi. eexists. split; [by apply lookup_diffed_points|].
    apply length_diffed_row. }
  split; [apply length_diffed_points|]. split; [done|].
  rewrite !Forall_lookup. intros Hall i row' Hi.
  destruct (lookup_lt_is_Some_2 (Points serie) i) as [row Hrow].
  { apply lookup_lt_Some in Hi. by rewrite length_diffed_points in Hi. }
  destruct (Hrows i row Hrow) as (row'' & Hi' & Hlen).
  rewrite Hi in Hi'. inversion Hi'; subst row''. rewrite Hlen. by apply (Hall i).
Qed.

(** X5: a counter that did not move is reported as 0, for every finite
    factor. *)
Theorem stable_counter_gives_zero w p r w' serie i j k x :
  DiffFromLast p w = Returns (r, w') ->
  heap w !! p = Some serie ->
  cell (Points serie) i j = Some (VInt k x) ->
  cell (cached w (Name serie)) i j = Some (VInt k x) ->
  F64.is_finite consistencyFactor = true ->
  cell (points_at w' p) i j = Some (VInt k 0).
Proof.
  intros H Hp Hc Hold Hfin.
  rewrite (DiffFromLast_cell _ _ _ _ _ _ _ _ _ _ H Hp), Hc, Hold. simpl.
  unfold scaled_diff. rewrite sub_same. by rewrite to_int_zero_times_finite.
Qed.

(** X6: what the next call diffs against is the raw value of this call,
    although this call has overwritten the cell of its series. *)
Theorem next_call_diffs_against_raw w p1 r1 w1 serie1 p2 r2 w2 serie2 i j k R1 R2 :
  DiffFromLast p1 w = Returns (r1, w1) ->
  heap w !! p1 = Some serie1 ->
  cell (Points serie1) i j = Some (VInt k R1) ->
  DiffFromLast p2 w1 = Returns (r2, w2) ->
  heap w1 !! p2 = Some serie2 ->
  Name serie2 = Name serie1 ->
  cell (Points serie2) i j = Some (VInt k R2) ->
  cell (points_at w2 p2) i j = Some (VInt k (scaled_diff k R2 R1)).
Proof.
  intros H1 Hp1 Hc1 H2 Hp2 Hname Hc2.
  rewrite (DiffFromLast_cell _ _ _ _ _ _ _ _ _ _ H2 Hp2), Hc2, Hname. simpl.
  by rewrite (DiffFromLast_cached _ _ _ _ _ _ _ _ _ _ H1 Hp1), Hc1.
Qed.

(** X7: once a series has been through a call, a call on a series of the
    same name with no cell outside the shape of the first is complete:
    when it returns, it returns the address it was given. *)
Theorem call_within_seen_shape_is_complete w p1 r1 w1 serie1 p2 r2 w2 serie2 :
  DiffFromLast p1 w = Returns (r1, w1) ->
  heap w !! p1 = Some serie1 ->
  DiffFromLast p2 w1 = Returns (r2, w2) ->
  heap w1 !! p2 = Some serie2 ->
  Name serie2 = Name serie1 ->
  (forall i j c, cell (Points serie2) i j = Some c ->
                 is_Some (cell (Points serie1) i j)) ->
  r2 = Some p2.
Proof.
  intros H1 Hp1 H2 Hp2 Hname Hshape.
  destruct (DiffFromLast_value _ _ _ _ _ _ _ _ H2 Hp2)
    as [[_ (i & j & c & Hc & Hnone)]|[-> _]]; [|done].
  destruct (Hshape i j c Hc) as [c1 Hc1].
  rewrite Hname, (DiffFromLast_cached _ _ _ _ _ _ _ _ _ _ H1 Hp1), Hc1 in Hnone.
  done.
Qed.

End normalizer_more.

(** ** The gathering functions that diff *)

Section diffing_gatherers.
Variable goarch : arch.
Variable conv_unrepresentable : intkind -> spec_float -> Z.
Variable consistencyFactor : F64.t.
Variable strings_Split : string -> string -> list string.
Variable strings_Trim : string -> string -> string.
Variable strings_Fields : string -> list string.
Variable strconv_Atoi : string -> option Z.

#[local] Arguments atoi_fields : simpl never.

Local Abbreviation DiffFromLast := (DiffFromLast goarch conv_unrepresentable consistencyFactor).
Local Abbreviation diffed_points := (diffed_points goarch conv_unrepresentable consistencyFactor).
Local Abbreviation cpu := (cpu goarch conv_unrepresentable consistencyFactor).
Local Abbreviation cpus := (cpus goarch conv_unrepresentable consistencyFactor).
Local Abbreviation atoi_fields := (atoi_fields strconv_Atoi).
Local Abbreviation network_scan :=
  (network_scan strings_Split strings_Trim strings_Fields strconv_Atoi).
Local Abbreviation network :=
  (network goarch conv_unrepresentable consistencyFactor
           strings_Split strings_Trim strings_Fields strconv_Atoi).
Local Abbreviation short_network_line :=
  (short_network_line strings_Split strings_Fields).
Local Abbreviation disks_scan := (disks_scan strings_Fields strconv_Atoi).
Local Abbreviation disks :=
  (disks goarch conv_unrepresentable consistencyFactor strings_Fields strconv_Atoi).

(** A call on the series just built at the end of the heap. *)
Lemma DiffFromLast_fresh w name cols rows r w' :
  DiffFromLast (length (heap w)) (set_heap w (heap w ++ [mkSeries name cols rows]))
  = Returns (r, w') ->
  (r = None \/ r = Some (length (heap w)))
  /\ chan w' = chan w
  /\ heap w' = heap w ++ [mkSeries name cols (diffed_points (cached w name) rows)]
  /\ (forall n, n <> name -> last_series w' !! n = last_series w !! n).
Proof.
  intros H. destruct (DiffFromLast_inv _ _ _ _ _ _ _ H) as (s & Hs & _ & -> & ->).
  cbn [heap set_heap] in Hs. rewrite lookup_app_r, Nat.sub_diag in Hs by done.
  inversion Hs; subst s. clear Hs. cbn [Name Points].
  split; [destruct (has_new _ _ _); auto|]. split; [done|]. split.
  - unfold diffed_world, set_heap, set_Points, cached. cbn.
    by rewrite insert_app_r_alt, Nat.sub_diag by done.
  - intros n Hn. unfold diffed_world. cbn. by rewrite lookup_insert_ne.
Qed.

Lemma DiffFromLast_fresh_first_lap w name cols rows :
  last_series w !! name = None ->
  exists r w',
    DiffFromLast (length (heap w)) (set_heap w (heap w ++ [mkSeries name cols rows]))
    = Returns (r, w').
Proof.
  intros Hnone. eexists _, _. apply DiffFromLast_returns.
  - cbn [heap set_heap]. by rewrite lookup_app_r, Nat.sub_diag by done.
  - cbn [Name Points]. unfold cached. cbn [last_series set_heap]. rewrite Hnone. simpl.
    unfold compatible. apply forallb_imap_true. intros i prow _.
    unfold row_compatible. apply forallb_imap_true. intros j c _.
    unfold previous. rewrite row_at_lookup. unfold cell. rewrite lookup_nil. simpl.
    apply assertable_same.
Qed.

(** X8: [cpu] writes exactly one value to the channel whenever it
    returns: nil with the error when gosigar fails, and else nil or the
    address of the series it has just built. *)
Theorem cpu_sends_exactly_one prefix o w err w' :
  cpu prefix o w = Returns (err, w') ->
  exists m, chan w' = chan w ++ [m]
    /\ (sigar_Cpu o = None -> m = None /\ err = Some Error)
    /\ (is_Some (sigar_Cpu o) ->
        err = None /\ (m = None \/ m = Some (length (heap w)))).
Proof.
  unfold cpu, alloc. destruct (sigar_Cpu o) as [c|].
  - rewrite append_point_fresh. cbn [mbind result_bind].
    destruct (DiffFromLast _ _) as [[r w1]|] eqn:Hd; [|done]. cbn.
    intros [= <- <-]. destruct (DiffFromLast_fresh _ _ _ _ _ _ Hd) as (Hr & Hch & _).
    exists r. cbn. rewrite Hch. split; [done|]. split; [done|]. by intros _.
  - intros [= <- <-]. exists None. split; [done|]. split; [done|].
    intros [? ?]. done.
Qed.

Lemma cpus_range_fresh w name cols rows i l :
  cpus_range (length (heap w)) i l (set_heap w (heap w ++ [mkSeries name cols rows]))
  = Returns (set_heap w (heap w ++ [mkSeries name cols
               (rows ++ imap (fun k c => cpu_row ("cpu" +:+ pretty (i + k)) c) l)])).
Proof.
  revert i rows. induction l as [|c l IH]; intros i rows; simpl.
  - by rewrite app_nil_r.
  - rewrite append_point_fresh. cbn [mbind result_bind]. rewrite IH.
    rewrite <- app_assoc. simpl. rewrite Nat.add_0_r.
    rewrite (imap_ext (fun k c0 => cpu_row ("cpu" +:+ pretty (S (i + k))) c0)
               ((fun k c0 => cpu_row ("cpu" +:+ pretty (i + k)) c0) ∘ S) l); [done|].
    intros k x _. simpl. do 3 f_equal. lia.
Qed.

(** X9: [cpus] writes exactly one value whenever it returns, with no
    error; the series it builds has one row of seven values per
    processor, row [i] being labelled cpu[i]. *)
Theorem cpus_sends_one_row_per_processor prefix o w err w' :
  cpus prefix o w = Returns (err, w') ->
  err = None
  /\ (exists m, chan w' = chan w ++ [m] /\ (m = None \/ m = Some (length (heap w))))
  /\ length (points_at w' (length (heap w))) = length (sigar_CpuList o)
  /\ forall i, (i < length (sigar_CpuList o))%nat ->
       exists row, points_at w' (length (heap w)) !! i = Some row
                   /\ length row = 7%nat
                   /\ row !! 0%nat = Some (VString ("cpu" +:+ pretty i)).
Proof.
  unfold cpus, alloc. rewrite cpus_range_fresh. cbn [mbind result_bind app].
  destruct (DiffFromLast _ _) as [[r w1]|] eqn:Hd; [|done]. cbn.
  intros [= <- <-]. destruct (DiffFromLast_fresh _ _ _ _ _ _ Hd) as (Hr & Hch & Hheap & _).
  split; [done|]. split; [exists r; cbn; by rewrite Hch|].
  unfold points_at. cbn [heap send]. rewrite Hheap, lookup_app_r, Nat.sub_diag by done.
  cbn. split; [by rewrite length_diffed_points, length_imap|].
  intros i Hi. destruct (lookup_lt_is_Some_2 _ i Hi) as [c Hc].
  eexists. split.
  - apply lookup_diffed_points. by rewrite list_lookup_imap, Hc.
  - split; [by rewrite length_diffed_row|].
    unfold diffed_row. rewrite list_lookup_imap. simpl. done.
Qed.

Lemma atoi_step tmp from n points :
  from + n <= length tmp ->
  forall k, k < n ->
    (t ← idx (tmp !! (from + k));
     Returns ((points ++ ((fun t => VInt Int (default 0%Z (strconv_Atoi t)))
                            <$> take k (drop from tmp)))
              ++ [VInt Int (default 0%Z (strconv_Atoi t))]))
    = Returns (points ++ ((fun t => VInt Int (default 0%Z (strconv_Atoi t)))
                            <$> take (S k) (drop from tmp))).
Proof.
  intros Hlen k Hk.
  destruct (lookup_lt_is_Some_2 tmp (from + k)) as [t Ht]; [lia|].
  rewrite Ht. cbn.
  rewrite (take_S_r _ _ t) by (by rewrite lookup_drop).
  by rewrite fmap_app, app_assoc.
Qed.

Lemma atoi_fields_returns tmp from n points :
  from + n <= length tmp ->
  atoi_fields tmp from n points
  = Returns (points ++ ((fun t => VInt Int (default 0%Z (strconv_Atoi t)))
                          <$> take n (drop from tmp))).
Proof.
  intros Hlen. unfold atoi_fields.
  rewrite <- (app_nil_r points) at 1.
  exact (for_loop_states _ (fun k => points ++
           ((fun t => VInt Int (default 0%Z (strconv_Atoi t))) <$> take k (drop from tmp)))
           n (atoi_step tmp from n points Hlen)).
Qed.

Lemma atoi_fields_panics tmp from n points :
  0 < n -> length tmp < from + n ->
  atoi_fields tmp from n points = Panics.
Proof.
  intros Hn Hlen. unfold atoi_fields.
  rewrite <- (app_nil_r points) at 1.
  pose (st := fun k : nat => points ++
           ((fun t => VInt Int (default 0%Z (strconv_Atoi t))) <$> take k (drop from tmp))).
  change (points ++ []) with (st 0).
  assert (Hle : from + (length tmp - from) <= length tmp \/ length tmp < from) by lia.
  destruct Hle as [Hle|Hshort].
  - apply (for_loop_panics _ st n (length tmp - from)).
    + apply (atoi_step tmp from _ points Hle).
    + lia.
    + rewrite (lookup_ge_None_2 tmp) by lia. done.
  - apply (for_loop_panics _ st n 0); [intros k' Hk'; lia|lia|].
    rewrite (lookup_ge_None_2 tmp) by lia. done.
Qed.

Lemma atoi_fields_length tmp from n points points' :
  atoi_fields tmp from n points = Returns points' ->
  length points' = length points + n.
Proof.
  destruct (Nat.le_gt_cases (from + n) (length tmp)) as [Hle|Hgt].
  - rewrite atoi_fields_returns by done. intros [= <-].
    rewrite length_app, length_fmap, length_take, length_drop. lia.
  - destruct n as [|n]; [intros [= <-]; lia|].
    by rewrite atoi_fields_panics by lia.
Qed.

Lemma network_scan_rows w name cols rows lines skip sc :
  Forall (fun row => length row = length network_Columns) rows ->
  network_scan (length (heap w)) lines skip
    (set_heap w (heap w ++ [mkSeries name cols rows])) = Returns sc ->
  exists rows',
    Forall (fun row => length row = length network_Columns) rows'
    /\ (sc = Scanned (set_heap w (heap w ++ [mkSeries name cols rows']))
        \/ sc = Returned None
                  (send None (set_heap w (heap w ++ [mkSeries name cols rows'])))).
Proof.
  revert skip rows. induction lines as [|line lines IH]; intros skip rows Hrows.
  - simpl. intros [= <-]. exists rows. auto.
  - destruct skip as [|skip]; [|by apply IH]. cbn [network_scan].
    destruct (length (strings_Split line ":") <? 2).
    + intros [= <-]. exists rows. auto.
    + destruct (strings_Split line ":" !! 0) as [t0|]; cbn; [|done].
      destruct (strings_Split line ":" !! 1) as [t1|]; cbn; [|done].
      destruct (atoi_fields (strings_Fields t1) 0 _ _) as [points|] eqn:Hpoints; cbn; [|done].
      rewrite append_point_fresh. cbn. apply IH.
      apply Forall_app. split; [done|]. apply Forall_singleton.
      by rewrite (atoi_fields_length _ _ _ _ _ Hpoints).
Qed.

(** X10: when [/proc/net/dev] opens and [network] returns, it has written
    exactly one value to the channel and reports no error; the series it
    built is named after the prefix, has the 17 columns, and every row of
    it has one value per column. *)
Theorem network_sends_one_and_rows_match_columns prefix o w lines err w' :
  proc_net_dev o = Some lines ->
  network prefix o w = Returns (err, w') ->
  err = None
  /\ (exists m, chan w' = chan w ++ [m] /\ (m = None \/ m = Some (length (heap w))))
  /\ exists serie,
       heap w' !! length (heap w) = Some serie
       /\ Name serie = prefix +:+ "network"
       /\ Columns serie = network_Columns
       /\ Forall (fun row => length row = length (Columns serie)) (Points serie).
Proof.
  intros Hopen. unfold network, alloc. rewrite Hopen.
  destruct (network_scan _ _ _ _) as [sc|] eqn:Hsc; cbn; [|done].
  destruct (network_scan_rows _ _ _ _ _ _ _ (Forall_nil_2 _) Hsc)
    as (rows & Hrows & [->| ->]).
  - destruct (DiffFromLast _ _) as [[r w1]|] eqn:Hd; cbn; [|done].
    intros [= <- <-].
    destruct (DiffFromLast_fresh _ _ _ _ _ _ Hd) as (Hr & Hch & Hheap & _).
    split; [done|]. split; [exists r; cbn; by rewrite Hch|].
    eexists. cbn [heap send]. rewrite Hheap, lookup_app_r, Nat.sub_diag by done.
    split; [done|]. split; [done|]. split; [done|]. cbn [Points Columns].
    apply Forall_lookup. intros i row Hi. unfold diffed_points in Hi.
    rewrite list_lookup_imap in Hi.
    destruct (rows !! i) as [prow|] eqn:Hprow; [|done]. simpl in Hi.
    inversion Hi. rewrite length_diffed_row.
    by apply (proj1 (Forall_lookup _ _) Hrows i).
  - intros [= <- <-]. split; [done|]. split; [by exists None; auto|].
    eexists. cbn [heap send set_heap]. rewrite lookup_app_r, Nat.sub_diag by done.
    done.
Qed.

Lemma disks_scan_rows w name cols rows lines :
  Forall (fun row => length row = length disks_Columns) rows ->
  exists rows',
    Forall (fun row => length row = length disks_Columns) rows'
    /\ (disks_scan (length (heap w)) lines
          (set_heap w (heap w ++ [mkSeries name cols rows]))
        = Returns (Scanned (set_heap w (heap w ++ [mkSeries name cols rows'])))
        \/ disks_scan (length (heap w)) lines
             (set_heap w (heap w ++ [mkSeries name cols rows]))
           = Returns (Returned None
                        (send None (set_heap w (heap w ++ [mkSeries name cols rows']))))).
Proof.
  revert rows. induction lines as [|line lines IH]; intros rows Hrows.
  - exists rows. auto.
  - cbn [disks_scan].
    destruct (Nat.ltb_spec (length (strings_Fields line)) 14) as [Hlt|Hge].
    + exists rows. auto.
    + destruct (lookup_lt_is_Some_2 (strings_Fields line) 2) as [t2 Ht2]; [lia|].
      rewrite Ht2. cbn.
      rewrite atoi_fields_returns by (simpl; lia). cbn.
      rewrite append_point_fresh. cbn. apply IH.
      apply Forall_app. split; [done|]. apply Forall_singleton.
      cbn [length]. rewrite length_fmap, length_take, length_drop.
      rewrite Nat.min_l by lia. done.
Qed.

(** X11: when [/proc/diskstats] opens and the name of the series was never
    seen, [disks] returns, whatever the lines are: no line makes it panic.
    It then has written exactly one value and reports no error, and every
    row of its series has one value per column. *)
Theorem disks_returns_on_first_lap prefix o w lines :
  proc_diskstats o = Some lines ->
  last_series w !! (prefix +:+ "disks") = None ->
  exists w' m,
    disks prefix o w = Returns (None, w')
    /\ chan w' = chan w ++ [m]
    /\ exists serie,
         heap w' !! length (heap w) = Some serie
         /\ Columns serie = disks_Columns
         /\ Forall (fun row => length row = length (Columns serie)) (Points serie).
Proof.
  intros Hopen Hnone. unfold disks, alloc. rewrite Hopen.
  destruct (disks_scan_rows w (prefix +:+ "disks") disks_Columns [] lines (Forall_nil_2 _))
    as (rows & Hrows & [-> | ->]); cbn.
  - destruct (DiffFromLast_fresh_first_lap w (prefix +:+ "disks") disks_Columns rows Hnone)
      as (r & w1 & Hd).
    rewrite Hd. cbn.
    destruct (DiffFromLast_fresh _ _ _ _ _ _ Hd) as (Hr & Hch & Hheap & _).
    exists (send r w1), r. split; [done|]. split; [cbn; by rewrite Hch|].
    eexists. cbn [heap send]. rewrite Hheap, lookup_app_r, Nat.sub_diag by done.
    split; [done|]. split; [done|]. cbn [Points Columns].
    apply Forall_lookup. intros i row Hi. unfold diffed_points in Hi.
    rewrite list_lookup_imap in Hi.
    destruct (rows !! i) as [prow|] eqn:Hprow; [|done]. simpl in Hi.
    inversion Hi. rewrite length_diffed_row.
    by apply (proj1 (Forall_lookup _ _) Hrows i).
  - eexists _, None. split; [done|]. split; [done|].
    eexists. cbn [heap send set_heap]. rewrite lookup_app_r, Nat.sub_diag by done.
    done.
Qed.

Lemma append_point_chan p row w w' :
  append_point p row w = Returns w' -> chan w' = chan w.
Proof.
  unfold append_point. destruct (heap w !! p); cbn; [|done]. by intros [= <-].
Qed.

Lemma network_scan_short_line serie lines skip w sc :
  (exists line, line ∈ drop skip lines /\ short_network_line line) ->
  network_scan serie lines skip w = Returns sc ->
  exists w', sc = Returned None (send None w').
Proof.
  revert skip w. induction lines as [|line lines IH]; intros skip w (bad & Hin & Hbad).
  - rewrite drop_nil in Hin. by apply not_elem_of_nil in Hin.
  - destruct skip as [|skip]; [|apply IH; by exists bad].
    cbn [network_scan]. rewrite drop_0 in Hin.
    destruct (Nat.ltb_spec (length (strings_Split line ":")) 2) as [Hlt|Hge].
    + intros [= <-]. by eexists.
    + destruct (strings_Split line ":" !! 0) as [t0|]; cbn; [|done].
      destruct (strings_Split line ":" !! 1) as [t1|] eqn:Ht1; cbn; [|done].
      apply elem_of_cons in Hin. destruct Hin as [->|Hin].
      * destruct Hbad as [_ Hshort]. specialize (Hshort t1 Ht1).
        rewrite atoi_fields_panics; [done|simpl; lia|simpl in *; lia].
      * destruct (atoi_fields (strings_Fields t1) 0 _ _) as [points|]; cbn; [|done].
        destruct (append_point serie points w) as [w1|]; cbn; [|done].
        apply IH. exists bad. by rewrite drop_0.
Qed.

(** X12: when a line of [/proc/net/dev] after the two headers has a colon
    but fewer than 16 fields after it, [network] never sends a series:
    it panics on the missing field, unless an earlier line without colon
    has made it send nil. *)
Theorem network_short_line_sends_no_series prefix o w lines err w' :
  proc_net_dev o = Some lines ->
  (exists line, line ∈ drop 2 lines /\ short_network_line line) ->
  network prefix o w = Returns (err, w') ->
  chan w' = chan w ++ [None].
Proof.
  intros Hopen Hbad. unfold network, alloc. rewrite Hopen.
  destruct (network_scan _ _ _ _) as [sc|] eqn:Hsc; cbn; [|done].
  pose proof Hsc as Hsc'.
  destruct (network_scan_short_line _ _ _ _ _ Hbad Hsc) as [w1 ->].
  destruct (network_scan_rows _ _ _ _ _ _ _ (Forall_nil_2 _) Hsc')
    as (rows & _ & [Heq|Heq]); [done|].
  apply (f_equal (fun sc => match sc with Returned _ w => chan w | Scanned w => chan w end))
    in Heq.
  intros [= <- <-]. exact Heq.
Qed.

End diffing_gatherers.

(** X1: [stringInSlice] is membership in the list. *)
Theorem stringInSlice_is_membership a l : stringInSlice a l = true <-> a ∈ l.
Proof.
  induction l as [|b l IH]; simpl.
  - split; [done|]. intros H. by apply not_elem_of_nil in H.
  - rewrite elem_of_cons. destruct (String.eqb_spec b a) as [->|Hne].
    + split; [by left|done].
    + rewrite IH. split; [by right|]. by intros [->|?].
Qed.

(** ** Lines of [/proc/mounts] *)

Section mounts_lines.
Variable strings_Fields : string -> list string.

Local Abbreviation mounts_scan := (mounts_scan strings_Fields).
Local Abbreviation mounts := (mounts strings_Fields).

#[local] Arguments stringInSlice : simpl never.
#[local] Arguments String.eqb : simpl never.

Lemma mounts_scan_short_line o serie lines w sc :
  (exists line, line ∈ lines /\ length (strings_Fields line) < 3) ->
  mounts_scan o serie lines w = Returns sc ->
  exists w', sc = Returned (Some Error) w' /\ chan w' = chan w.
Proof.
  revert w. induction lines as [|line lines IH]; intros w (bad & Hin & Hbad).
  - by apply not_elem_of_nil in Hin.
  - cbn [mounts_scan].
    destruct (strings_Fields line !! 2) as [t2|] eqn:Ht2; cbn; [|done].
    assert (Hrest : exists line', line' ∈ lines /\ length (strings_Fields line') < 3).
    { apply elem_of_cons in Hin. destruct Hin as [->|Hin]; [|by exists bad].
      apply lookup_lt_Some in Ht2. lia. }
    destruct (stringInSlice t2 sysfs); cbn; [by apply IH|].
    destruct (strings_Fields line !! 0) as [t0|]; cbn; [|done].
    destruct (String.eqb t0 "none"); cbn; [by apply IH|].
    destruct (strings_Fields line !! 1) as [t1|]; cbn; [|done].
    destruct (syscall_Statfs o t1) as [fs|].
    + destruct (append_point serie _ w) as [w1|] eqn:Hap; cbn; [|done].
      intros Hsc. destruct (IH w1 Hrest Hsc) as (w' & -> & Hch).
      exists w'. split; [done|]. rewrite Hch. by apply (append_point_chan _ _ _ _ Hap).
    + intros [= <-]. by exists w.
Qed.

(** X13: when some line of [/proc/mounts] has fewer than three fields,
    [mounts] never writes to the channel: it panics on that line, unless
    a failing [syscall.Statfs] on an earlier line has made it return its
    error. *)
Theorem mounts_short_line_sends_nothing prefix o w lines err w' :
  proc_mounts o = Some lines ->
  (exists line, line ∈ lines /\ length (strings_Fields line) < 3) ->
  mounts prefix o w = Returns (err, w') ->
  err = Some Error /\ chan w' = chan w.
Proof.
  intros Hopen Hbad. unfold mounts, alloc. rewrite Hopen.
  destruct (mounts_scan _ _ _ _) as [sc|] eqn:Hsc; cbn; [|done].
  destruct (mounts_scan_short_line _ _ _ _ _ Hbad Hsc) as (w1 & -> & Hch).
  intros [= <- <-]. done.
Qed.

End mounts_lines.

(** ** More on the collecting loop *)

(** X14: the receiving loop takes the first [n] values off the channel,
    in order, and leaves the others; it keeps the addresses among them,
    and in one-shot mode sets [first] when one of them is nil; with fewer
    than [n] values on the channel it never finishes. *)
Theorem collect_takes_first_values fl n data first w :
  collect fl n data first w
  = if (n <=? length (chan w))%nat
    then Done (data ++ omap id (take n (chan w)),
               first || (negb (daemonFlag fl) && bool_decide (None ∈ take n (chan w))),
               mkWorld (heap w) (last_series w) (drop n (chan w)))
    else Blocked.
Proof.
  revert data first w. induction n as [|n IH]; intros data first w.
  - simpl. rewrite app_nil_r, andb_false_r, orb_false_r. by destruct w.
  - cbn [collect]. destruct (chan w) as [|res rest] eqn:Hch; [done|].
    cbn [length]. change (S n <=? S (length rest))%nat with (n <=? length rest)%nat.
    destruct res as [p|]; rewrite IH; cbn [chan heap last_series];
      destruct (n <=? length rest)%nat; try done.
    + rewrite firstn_cons, skipn_cons. cbn [omap list_omap].
      rewrite <- app_assoc. do 3 f_equal.
      do 2 f_equal. apply bool_decide_ext. rewrite elem_of_cons.
      split; [by right|]. by intros [?|?].
    + rewrite firstn_cons, skipn_cons. cbn [omap list_omap]. do 3 f_equal.
      rewrite (bool_decide_eq_true_2 (None ∈ None :: take n rest)) by apply list_elem_of_here.
      destruct (daemonFlag fl); simpl; [by rewrite !orb_false_r|].
      by rewrite orb_true_r.
Qed.

Section collecting_more.
Variable strings_ToLower : string -> string.

Local Abbreviation emit := (emit strings_ToLower).
Local Abbreviation lap := (lap strings_ToLower).
Local Abbreviation laps := (laps strings_ToLower).

(** X15: a turn of the loop waits forever exactly when the gathering
    functions all return and have written fewer values than there are
    gathering functions. *)
Theorem lap_blocked_iff_too_few_values fl collectList o w :
  lap fl collectList o w = Blocked
  <-> exists w1, launch fl collectList o w = Returns w1
                 /\ length (chan w1) < length collectList.
Proof.
  unfold lap. destruct (launch fl collectList o w) as [w1|].
  - rewrite collect_takes_first_values.
    destruct (Nat.leb_spec (length collectList) (length (chan w1))) as [Hle|Hgt].
    + split.
      * destruct (emit _ _ _ _ _) as [[evs w2]|]; done.
      * intros (w2 & [= <-] & Hlt). lia.
    + split; [|done]. intros _. by exists w1.
  - split; [done|]. by intros (w1 & ? & _).
Qed.

Lemma emit_shape fl o data first w evs w' :
  emit fl o data first w = Returns (evs, w') ->
  exists evs0,
    evs = evs0 ++ (if daemonFlag fl || first then [Sleep (daemonIntervalFlag fl)] else [])
    /\ (forall d, Sleep d ∉ evs0)
    /\ (first = true -> evs0 = [])
    /\ (first = false ->
        (String.eqb (databaseFlag fl) "" = false -> exists s, WriteSeries s ∈ evs0)
        /\ (String.eqb (databaseFlag fl) "" = true ->
            exists s, Print s ∈ evs0 \/ PrintJSON s ∈ evs0)).
Proof.
  unfold emit. destruct first; cbn.
  - intros [= <- <-]. exists []. rewrite orb_true_r.
    split; [done|]. split; [intros d; apply not_elem_of_nil|]. split; done.
  - destruct (if fqdnFlag fl then add_fqdn o data w else Returns w) as [w1|]; [|done].
    cbn. rewrite orb_false_r. intros [= <- <-]. eexists. split; [done|].
    split; [|split; [done|intros _; split]].
    + intros d Hin. apply elem_of_app in Hin.
      destruct Hin as [Hin|Hin];
        repeat (case_match; try (by apply not_elem_of_nil in Hin));
        apply list_elem_of_singleton in Hin; discriminate.
    + intros ->. eexists. apply elem_of_app. right. simpl. apply list_elem_of_here.
    + intros ->. simpl. eexists. rewrite app_nil_r.
      case_match; [left|right]; apply list_elem_of_here.
Qed.

(** X16: a turn that ends with [first] unset is never silent: it writes
    the series to the database when one is configured, and prints them
    when none is; and apart from the sleep that ends a turn in daemon mode
    it does nothing else that sleeps. *)
Theorem complete_lap_is_never_silent fl collectList o w evs w' :
  lap fl collectList o w = Done (evs, false, w') ->
  (String.eqb (databaseFlag fl) "" = false -> exists s, WriteSeries s ∈ evs)
  /\ (String.eqb (databaseFlag fl) "" = true ->
      exists s, Print s ∈ evs \/ PrintJSON s ∈ evs)
  /\ (daemonFlag fl = false -> forall d, Sleep d ∉ evs).
Proof.
  unfold lap. destruct (launch fl collectList o w) as [w1|]; [|done].
  destruct (collect fl _ _ _ w1) as [[[data first] w2]| |]; [|done|done].
  destruct (emit fl o data first w2) as [[evs1 w3]|] eqn:Hemit; [|done].
  intros [= <- -> <-].
  destruct (emit_shape _ _ _ _ _ _ _ Hemit) as (evs0 & -> & Hnosleep & _ & Hout).
  destruct (Hout eq_refl) as [Hwrite Hprint].
  split; [|split].
  - intros Hdb. destruct (Hwrite Hdb) as [s Hs]. exists s. apply elem_of_app. by left.
  - intros Hdb. destruct (Hprint Hdb) as [s [Hs|Hs]]; exists s; [left|right];
      apply elem_of_app; by left.
  - intros ->. simpl. rewrite app_nil_r. done.
Qed.

(** X17: in daemon mode every turn that finishes ends with [first] unset
    and with a sleep of the interval, whether or not a value received was
    nil; what was received is emitted before the sleep. *)
Theorem daemon_lap_emits_then_sleeps fl collectList o w evs first w' :
  daemonFlag fl = true ->
  lap fl collectList o w = Done (evs, first, w') ->
  first = false
  /\ exists evs0, evs = evs0 ++ [Sleep (daemonIntervalFlag fl)]
       /\ evs0 <> [] /\ forall d, Sleep d ∉ evs0.
Proof.
  intros Hd. unfold lap. destruct (launch fl collectList o w) as [w1|]; [|done].
  rewrite collect_takes_first_values.
  destruct (_ <=? _)%nat; [|done].
  rewrite Hd. cbn [negb andb]. rewrite orb_false_r.
  destruct (emit fl o _ false _) as [[evs1 w3]|] eqn:Hemit; [|done].
  intros [= <- <- <-]. split; [done|].
  destruct (emit_shape _ _ _ _ _ _ _ Hemit) as (evs0 & -> & Hnosleep & _ & Hout).
  rewrite Hd. exists evs0. split; [done|]. split; [|done].
  destruct (Hout eq_refl) as [Hwrite Hprint]. intros ->.
  destruct (String.eqb (databaseFlag fl) "").
  - destruct (Hprint eq_refl) as [s [Hs|Hs]]; by apply not_elem_of_nil in Hs.
  - destruct (Hwrite eq_refl) as [s Hs]. by apply not_elem_of_nil in Hs.
Qed.

(** X18: in daemon mode the loop never ends: as long as no turn blocks
    or panics, [fuel] turns are run and the loop is still going. *)
Theorem daemon_loop_never_ends fl collectList oracle fuel k w evss ended :
  daemonFlag fl = true ->
  laps fuel fl collectList oracle k w = Done (evss, ended) ->
  ended = false /\ length evss = fuel.
Proof.
  intros Hd. revert k w evss. induction fuel as [|fuel IH]; intros k w evss; simpl.
  - by intros [= <- <-].
  - destruct (lap fl collectList (oracle k) w) as [[[evs first] w1]| |]; [|done|done].
    rewrite Hd, orb_true_r.
    destruct (laps fuel fl collectList oracle (S k) w1) as [[rest e]| |] eqn:Hrest;
      [|done|done].
    intros [= <- <-]. destruct (IH _ _ _ Hrest) as [-> <-]. done.
Qed.

(** X19: in one-shot mode the loop ends after the first complete turn:
    every turn before it does nothing but sleep for the interval, and the
    last one does not sleep; a run that has not ended has only slept. *)
Theorem one_shot_loop_trace fl collectList oracle fuel k w evss ended :
  daemonFlag fl = false ->
  laps fuel fl collectList oracle k w = Done (evss, ended) ->
  if ended
  then exists n last, evss = replicate n [Sleep (daemonIntervalFlag fl)] ++ [last]
                      /\ n < fuel /\ forall d, Sleep d ∉ last
  else evss = replicate fuel [Sleep (daemonIntervalFlag fl)].
Proof.
  intros Hd. revert k w evss ended.
  induction fuel as [|fuel IH]; intros k w evss ended; simpl.
  - by intros [= <- <-].
  - destruct (lap fl collectList (oracle k) w) as [[[evs first] w1]| |] eqn:Hlap;
      [|done|done].
    assert (Hlap' := Hlap). unfold lap in Hlap'.
    destruct (launch fl collectList (oracle k) w) as [w0|]; [|done].
    destruct (collect fl _ _ _ w0) as [[[data first'] w2]| |]; [|done|done].
    destruct (emit fl (oracle k) data first' w2) as [[evs1 w3]|] eqn:Hemit; [|done].
    inversion Hlap'; subst evs1 first' w3. clear Hlap'.
    destruct (emit_shape _ _ _ _ _ _ _ Hemit) as (evs0 & -> & Hnosleep & Hfirst & _).
    rewrite Hd. rewrite orb_false_r. cbn [orb]. destruct first.
    + rewrite (Hfirst eq_refl). cbn [app].
      destruct (laps fuel fl collectList oracle (S k) w1) as [[rest e]| |] eqn:Hrest;
        [|done|done].
      intros [= <- <-]. specialize (IH _ _ _ _ Hrest). destruct e.
      * destruct IH as (n & last & -> & Hn & Hlast).
        exists (S n), last. split; [done|]. split; [lia|done].
      * by rewrite IH.
    + intros [= <- <-]. exists 0, (evs0 ++ []). split; [done|]. split; [lia|].
      by rewrite app_nil_r.
Qed.

End collecting_more.

(** ** The fqdn column *)


Lemma add_fqdn_cons o p data w :
  add_fqdn o (p :: data) w
  = match heap w !! p with
    | Some serie =>
        add_fqdn o data
          (set_heap w
             (<[p := mkSeries (Name serie) (Columns serie ++ ["fqdn"])
                       (map (fun value => value ++ [VString (hostname_f o)]) (Points serie))]>
                (heap w)))
    | None => Panics
    end.
Proof.
  unfold add_fqdn. cbn [foldl mbind result_bind].
  destruct (heap w !! p) as [serie|]; cbn; [done|].
  induction data as [|q data IH]; [done|]. cbn. apply IH.
Qed.

(** X20: the fqdn block, on distinct addresses that all hold a series,
    returns; it appends the column "fqdn" to each of these series and the
    host name to each of their rows, so that rows with one value per
    column still have one; the other series, the cache and the channel are
    left alone. *)
Theorem add_fqdn_appends_a_column o data w :
  NoDup data ->
  (forall p, p ∈ data -> is_Some (heap w !! p)) ->
  exists w',
    add_fqdn o data w = Returns w'
    /\ last_series w' = last_series w /\ chan w' = chan w
    /\ length (heap w') = length (heap w)
    /\ (forall p serie, heap w !! p = Some serie -> p ∉ data -> heap w' !! p = Some serie)
    /\ (forall p serie, heap w !! p = Some serie -> p ∈ data ->
          heap w' !! p
          = Some (mkSeries (Name serie) (Columns serie ++ ["fqdn"])
                    (map (fun row => row ++ [VString (hostname_f o)]) (Points serie)))
          /\ (Forall (fun row => length row = length (Columns serie)) (Points serie) ->
              Forall (fun row => length row = length (Columns serie ++ ["fqdn"]))
                (map (fun row => row ++ [VString (hostname_f o)]) (Points serie)))).
Proof.
  intros Hnd. revert w. induction Hnd as [|p data Hp Hnd IH]; intros w Hall.
  - exists w. split; [done|]. split; [done|]. split; [done|]. split; [done|].
    split; [done|]. intros q serie _ Hin. by apply not_elem_of_nil in Hin.
  - rewrite add_fqdn_cons.
    destruct (Hall p) as [serie Hserie]; [apply list_elem_of_here|]. rewrite Hserie.
    pose proof (lookup_lt_Some _ _ _ Hserie) as Hlt.
    set (serie' := mkSeries (Name serie) (Columns serie ++ ["fqdn"])
                     (map (fun value => value ++ [VString (hostname_f o)]) (Points serie))).
    destruct (IH (set_heap w (<[p := serie']> (heap w))))
      as (w' & Hrun & Hls & Hch & Hlen & Hout & Hin).
    { intros q Hq. cbn [heap set_heap]. apply lookup_lt_is_Some.
      rewrite length_insert. apply lookup_lt_is_Some. apply Hall. by right. }
    exists w'. split; [done|]. split; [done|]. split; [done|].
    split; [by rewrite Hlen; cbn; rewrite length_insert|]. split.
    + intros q s Hq Hnotin. apply not_elem_of_cons in Hnotin. destruct Hnotin as [Hne Hnotin].
      apply Hout; [|done]. cbn. by rewrite list_lookup_insert_ne.
    + intros q s Hq Hqin. apply elem_of_cons in Hqin. destruct Hqin as [->|Hqin].
      * rewrite Hserie in Hq. inversion Hq; subst s. split.
        -- apply Hout; [|done]. cbn. by rewrite list_lookup_insert_eq.
        -- intros Hrows. apply Forall_fmap. eapply Forall_impl; [exact Hrows|].
           intros row Hrow. simpl. rewrite !length_app, Hrow. done.
      * assert (q <> p) as Hne by (intros ->; done).
        split.
        -- destruct (Hin q s) as [Hq' _]; [cbn; by rewrite list_lookup_insert_ne|done|done].
        -- intros Hrows. apply Forall_fmap. eapply Forall_impl; [exact Hrows|].
           intros row Hrow. simpl. rewrite !length_app, Hrow. done.
Qed.

(** ** The collect list *)

Section collect_list.
Variable goarch : arch.
Variable conv_unrepresentable : intkind -> spec_float -> Z.
Variable consistencyFactor : F64.t.
Variable strings_Split : string -> string -> list string.
Variable strings_Trim : string -> string -> string.
Variable strings_Fields : string -> list string.
Variable strconv_Atoi : string -> option Z.

Local Abbreviation collect_option :=
  (collect_option goarch conv_unrepresentable consistencyFactor
                  strings_Split strings_Trim strings_Fields strconv_Atoi).
Local Abbreviation build_collectList :=
  (build_collectList goarch conv_unrepresentable consistencyFactor
                     strings_Split strings_Trim strings_Fields strconv_Atoi).

(** X21: the collect list gets one gathering function per part of the
    flag, in the order of the parts; as soon as one part is not a known
    name no list is built. *)
Theorem build_collectList_one_per_part parts collectList :
  (forall l, build_collectList parts collectList = Some l
             <-> exists gs, Forall2 (fun c g => collect_option c = Some g) parts gs
                            /\ l = collectList ++ gs)
  /\ (build_collectList parts collectList = None
      <-> exists c, c ∈ parts /\ collect_option c = None).
Proof.
  revert collectList. induction parts as [|c parts IH]; intros collectList.
  - split.
    + intros l. simpl. split.
      * intros [= <-]. exists []. by rewrite app_nil_r.
      * intros (gs & Hgs & ->). apply Forall2_nil_inv_l in Hgs. subst gs.
        by rewrite app_nil_r.
    + simpl. split; [done|]. intros (c & Hc & _). by apply not_elem_of_nil in Hc.
  - cbn [build_collectList].
    destruct (collect_option c) as [g|] eqn:Hc.
    + destruct (IH (collectList ++ [g])) as [IHsome IHnone]. split.
      * intros l. rewrite IHsome. split.
        -- intros (gs & Hgs & ->). exists (g :: gs). split; [by constructor|].
           by rewrite <- app_assoc.
        -- intros (gs & Hgs & ->). apply Forall2_cons_inv_l in Hgs.
           destruct Hgs as (g' & gs' & Hg' & Hgs' & ->).
           rewrite Hc in Hg'. inversion Hg'; subst g'.
           exists gs'. split; [done|]. by rewrite <- app_assoc.
      * rewrite IHnone. split.
        -- intros (c' & Hin & Hnone). exists c'. split; [by right|done].
        -- intros (c' & Hin & Hnone). apply elem_of_cons in Hin.
           destruct Hin as [->|Hin]; [congruence|]. by exists c'.
    + split.
      * intros l. split; [done|]. intros (gs & Hgs & _).
        apply Forall2_cons_inv_l in Hgs. destruct Hgs as (g' & gs' & Hg' & _).
        congruence.
      * split; [|done]. intros _. exists c. split; [by left|done].
Qed.

End collect_list.

(** ** The prefix *)

Lemma string_app_cons a s t : String a s +:+ t = String a (s +:+ t).
Proof. reflexivity. Qed.

Lemma get_last_of_append s c :
  String.get (String.length (s +:+ String c "") - 1) (s +:+ String c "") = Some c.
Proof.
  induction s as [|a s IH]; [done|].
  rewrite string_app_cons. cbn [String.length]. rewrite Nat.sub_succ, Nat.sub_0_r.
  destruct (String.length (s +:+ String c "")) as [|n] eqn:Hlen.
  - destruct s; discriminate.
  - cbn [String.get]. by rewrite Nat.sub_succ, Nat.sub_0_r in IH.
Qed.

Lemma append_not_empty s c : String.eqb (s +:+ String c "") "" = false.
Proof. by destruct s. Qed.

(** X22: the prefix is left empty when it is empty, and else made to end
    with a dot, by appending one only when it does not end with one
    already; doing it twice changes nothing more. *)
Theorem normalize_prefix_ends_with_dot s :
  normalize_prefix "" = ""
  /\ (s <> "" -> exists s', normalize_prefix s = s' +:+ ".")
  /\ (normalize_prefix s = s \/ normalize_prefix s = s +:+ ".")
  /\ normalize_prefix (normalize_prefix s) = normalize_prefix s.
Proof.
  split; [done|].
  assert (Hdot : forall t, normalize_prefix (t +:+ ".") = t +:+ ".").
  { intros t. unfold normalize_prefix.
    rewrite append_not_empty, get_last_of_append.
    by rewrite bool_decide_eq_true_2. }
  assert (Hlast : forall t, t <> "" ->
            String.get (String.length t - 1) t = Some "."%char ->
            exists t', t = t' +:+ ".").
  { induction t as [|a t IH]; [done|].
    intros _. cbn [String.length]. rewrite Nat.sub_succ, Nat.sub_0_r.
    destruct t as [|b t].
    - cbn. intros [= ->]. by exists "".
    - cbn [String.length String.get]. intros Hget.
      destruct IH as [t' Ht']; [done| |].
      + cbn [String.length]. by rewrite Nat.sub_succ, Nat.sub_0_r.
      + exists (String a t'). by rewrite string_app_cons, <- Ht'. }
  assert (Hcases : normalize_prefix s = s /\ (s = "" \/ exists s', s = s' +:+ ".")
                   \/ normalize_prefix s = s +:+ "." /\ s <> "").
  { unfold normalize_prefix.
    destruct (String.eqb_spec s "") as [->|Hne]; cbn [negb andb]; [by left; auto|].
    destruct (bool_decide _) eqn:Hb; cbn [negb]; [|by right].
    apply bool_decide_eq_true in Hb. left. split; [done|]. right. by apply Hlast. }
  destruct Hcases as [[Hn Hs]|[Hn Hne]].
  - split; [|split; [by left|by rewrite !Hn]].
    intros Hne. destruct Hs as [->|[s' ->]]; [done|]. exists s'. by rewrite Hn.
  - split; [intros _; by exists s|]. split; [by right|]. rewrite Hn. apply Hdot.
Qed.

(** ** [prettyPrinter] *)

Section loops_more.
Context {S : Type}.
Implicit Types (body : nat -> S -> result S).

Lemma for_from_ext body1 body2 n i s :
  (forall k s, i <= k < i + n -> body1 k s = body2 k s) ->
  for_from n i body1 s = for_from n i body2 s.
Proof.
  revert i s. induction n as [|n IH]; intros i s Hext; [done|].
  simpl. rewrite Hext by lia. destruct (body2 i s) as [s'|]; [|done]. cbn.
  apply IH. intros k s0 Hk. apply Hext. lia.
Qed.

Lemma for_from_total body n i s :
  (forall k s, i <= k < i + n -> exists s', body k s = Returns s') ->
  exists s', for_from n i body s = Returns s'.
Proof.
  revert i s. induction n as [|n IH]; intros i s Hall; [by eexists|].
  simpl. destruct (Hall i s) as [s1 ->]; [lia|]. cbn.
  apply IH. intros k s0 Hk. apply Hall. lia.
Qed.

Lemma for_from_panics_at body n i k s :
  i <= k < i + n ->
  (forall s, body k s = Panics) ->
  for_from n i body s = Panics.
Proof.
  revert i s. induction n as [|n IH]; intros i s Hk Hp; [lia|].
  simpl. destruct (decide (i = k)) as [->|Hne]; [by rewrite Hp|].
  destruct (body i s) as [s1|]; [|done]. cbn. apply IH; [lia|done].
Qed.
End loops_more.

Section printing.
Variable fmt_Sprint : value -> string.

Local Abbreviation print_values := (print_values fmt_Sprint).
Local Abbreviation print_points := (print_points fmt_Sprint).
Local Abbreviation prettyPrinter_from := (prettyPrinter_from fmt_Sprint).
Local Abbreviation prettyPrinter := (prettyPrinter fmt_Sprint).

Lemma print_values_cases n value out :
  (n <= length value /\ exists out', print_values n value out = Returns out')
  \/ (length value < n /\ print_values n value out = Panics).
Proof.
  destruct (Nat.le_gt_cases n (length value)) as [Hle|Hgt]; [left|right].
  - split; [done|]. apply for_from_total. intros k s Hk.
    destruct (lookup_lt_is_Some_2 value k) as [v ->]; [lia|]. by eexists.
  - split; [done|]. apply (for_from_panics_at _ _ _ (length value)); [lia|].
    intros s. by rewrite (lookup_ge_None_2 value).
Qed.

Lemma print_values_take n value out :
  print_values n (take n value) out = print_values n value out.
Proof.
  apply for_from_ext. intros k s Hk. by rewrite lookup_take_lt by lia.
Qed.

Lemma print_points_cases n points out :
  (Forall (fun row => n <= length row) points
   /\ exists out', print_points n points out = Returns out')
  \/ (Exists (fun row => length row < n) points
      /\ print_points n points out = Panics).
Proof.
  revert out. induction points as [|row points IH]; intros out.
  - left. split; [done|]. by eexists.
  - cbn [print_points].
    destruct (print_values_cases n row (out +:+ "| ")) as [[Hle [out1 ->]]|[Hgt ->]].
    + cbn. destruct (IH (out1 +:+ newline)) as [[Hall Hret]|[Hex Hp]].
      * left. split; [by constructor|done].
      * right. split; [by apply Exists_cons_tl|done].
    + right. split; [by apply Exists_cons_hd|done].
Qed.

Lemma print_points_take n points out :
  print_points n (map (take n) points) out = print_points n points out.
Proof.
  revert out. induction points as [|row points IH]; intros out; [done|].
  cbn [map print_points]. rewrite print_values_take.
  destruct (print_values n row _) as [out1|]; [|done]. cbn. apply IH.
Qed.

Lemma prettyPrinter_from_cases ks series out :
  (Forall (fun serie => Forall (fun row => length (Columns serie) <= length row)
                          (Points serie)) series
   /\ exists out', prettyPrinter_from ks series out = Returns out')
  \/ (Exists (fun serie => Exists (fun row => length row < length (Columns serie))
                             (Points serie)) series
      /\ prettyPrinter_from ks series out = Panics).
Proof.
  revert ks out. induction series as [|serie series IH]; intros ks out.
  - left. split; [done|]. by eexists.
  - cbn [prettyPrinter_from].
    destruct (print_points_cases (length (Columns serie)) (Points serie)
                (foldl (fun out col => out +:+ "| " +:+ col +:+ tab)
                   (out +:+ newline +:+ "#" +:+ pretty ks +:+ ": " +:+ Name serie +:+ newline)
                   (Columns serie) +:+ "|" +:+ newline))
      as [[Hall [out1 ->]]|[Hex ->]].
    + cbn. destruct (IH (S ks) out1) as [[Hrest Hret]|[Hex Hp]].
      * left. split; [by constructor|done].
      * right. split; [by apply Exists_cons_tl|done].
    + right. split; [by apply Exists_cons_hd|done].
Qed.

(** X23: [prettyPrinter] panics exactly when some row of some series has
    fewer values than the series has columns; and the values of a row
    beyond the number of columns are not printed. *)
Theorem prettyPrinter_panics_iff_short_row series :
  (prettyPrinter series = Panics
   <-> Exists (fun serie => Exists (fun row => length row < length (Columns serie))
                              (Points serie)) series)
  /\ prettyPrinter
       (map (fun serie =>
               set_Points serie (map (take (length (Columns serie))) (Points serie)))
            series)
     = prettyPrinter series.
Proof.
  split.
  - unfold prettyPrinter.
    destruct (prettyPrinter_from_cases 0 series "") as [[Hall [out' Hret]]|[Hex Hp]].
    + rewrite Hret. split; [intros; discriminate|]. intros Hex. exfalso.
      clear Hret. revert Hall.
      induction Hex as [serie rest Hbad|serie rest Hex IH]; intros Hall;
        apply Forall_cons in Hall; destruct Hall as [Hrows Hrest]; [|by apply IH].
      induction Hbad as [row rows Hrow|row rows Hbad IHb];
        apply Forall_cons in Hrows; destruct Hrows as [Hrow' Hrows]; [lia|by apply IHb].
    + by rewrite Hp.
  - unfold prettyPrinter. generalize 0 "". induction series as [|serie series IH];
      intros ks out; [done|].
    cbn [map prettyPrinter_from set_Points Columns Points Name].
    rewrite print_points_take.
    destruct (print_points _ _ _) as [out1|]; [|done]. cbn. apply IH.
Qed.

End printing.
